(** * Pull-request labeler: the matching engine of [src/main.ts]

    A shallow embedding of the labeler action.  The configuration is the
    untyped value [yaml.safeLoad] hands to [getLabelGlobMapFromObject];
    it is embedded as a small universe of JavaScript values, and the
    parser is written over it with the property reads and [for .. in]
    loops of the source.  Thrown exceptions are an explicit result type.
    The glob library, the Actions toolkit and the repository client are
    collaborators: they appear as a section variable ([Minimatch]) and
    as the fields of a [World] record.  A string is the sequence of its
    UTF-16 code units, each held in one [ascii]: strings with a code
    unit above 255 are outside the model. *)

From Stdlib Require Import List String Ascii ZArith Bool Lia.
From Stdlib Require Import Permutation Sorted.
From Stdlib Require Import DecimalNat DecimalString.
Import ListNotations.
Local Open Scope string_scope.
Local Open Scope list_scope.

(** ** JavaScript values *)

Module JS.

(** What [yaml.safeLoad] can return, plus [undefined] (an empty document,
    and the result of reading a property that is not there).  The payload
    of a number is never inspected by the program. *)
#[warnings="-register-all"]
Inductive value : Type :=
| JUndefined
| JNull
| JBool (b : bool)
| JNum (n : Z)
| JStr (s : string)
| JArr (elems : list value)
| JObj (props : list (string * value)).

(** Exceptions the program can see.  The two [Error(...)] sites of the
    parser get a constructor each; [PropertyOfNullish base k] is the
    engine's TypeError for [x[k]] with [x] null or undefined ([base] is
    its name); [CannotConvert] is the engine's TypeError for a value
    that has no string conversion; [External] is anything thrown by a
    library or by the repository client. *)
Inductive Thrown : Type :=
| UnexpectedLabelType (label : string)
| UnexpectedElement
| PropertyOfNullish (base key : string)
| CannotConvert
| External (msg : string).

Inductive result (A : Type) : Type :=
| Ok (a : A)
| Throw (e : Thrown).
Arguments Ok {A} a.
Arguments Throw {A} e.

Definition bind {A B} (r : result A) (k : A -> result B) : result B :=
  match r with
  | Ok a => k a
  | Throw e => Throw e
  end.

(** A [for] loop whose body may throw. *)
Fixpoint foldM {A S} (body : S -> A -> result S) (xs : list A) (s : S)
  : result S :=
  match xs with
  | [] => Ok s
  | x :: xs' => bind (body s x) (foldM body xs')
  end.

(** [error.message]. The TypeError text is V8's. *)
Definition message (e : Thrown) : string :=
  match e with
  | UnexpectedLabelType label =>
      "found unexpected type for label " ++ label
        ++ " (should be string or array of globs)"
  | UnexpectedElement => "found unexpected ..."
  | PropertyOfNullish base key =>
      "Cannot read property '" ++ key ++ "' of " ++ base
  | CannotConvert => "Cannot convert object to primitive value"
  | External msg => msg
  end.

(** The decimal property name of an array index. *)
Definition index_key (i : nat) : string :=
  NilEmpty.string_of_uint (Nat.to_uint i).

Fixpoint indexed_from {A} (i : nat) (xs : list A) : list (string * A) :=
  match xs with
  | [] => []
  | x :: xs' => (index_key i, x) :: indexed_from (S i) xs'
  end.

(** The characters of a string, as [s[i]] gives them: one per code
    unit. *)
Definition chars (s : string) : list value :=
  map (fun c => JStr (String c EmptyString)) (list_ascii_of_string s).

(** A property name that is an array index: the canonical decimal
    numeral of an integer below 2^32 - 1.  The engine keeps such
    properties apart from the named ones. *)
Definition array_index (k : string) : option N :=
  match NilEmpty.uint_of_string k with
  | Some d =>
      let n := N.of_uint d in
      if String.eqb (NilEmpty.string_of_uint (N.to_uint n)) k
         && N.ltb n 4294967295
      then Some n
      else None
  | None => None
  end.

Definition is_named (k : string) : bool :=
  match array_index k with
  | Some _ => false
  | None => true
  end.

Fixpoint insert_index {A} (n : N) (p : A) (sorted : list (N * A))
  : list (N * A) :=
  match sorted with
  | [] => [(n, p)]
  | (m, q) :: rest =>
      if N.leb n m then (n, p) :: sorted else (m, q) :: insert_index n p rest
  end.

(** The index-named properties, in ascending order of the index. *)
Fixpoint index_props {A} (props : list (string * A))
  : list (N * (string * A)) :=
  match props with
  | [] => []
  | p :: rest =>
      match array_index (fst p) with
      | Some n => insert_index n p (index_props rest)
      | None => index_props rest
      end
  end.

Definition named_props {A} (props : list (string * A)) : list (string * A) :=
  filter (fun p => is_named (fst p)) props.

(** The order in which the own properties of an object are enumerated:
    array indices first, ascending, then the other names in the order
    in which they were inserted. *)
Definition enumerate {A} (props : list (string * A)) : list (string * A) :=
  map snd (index_props props) ++ named_props props.

(** Own enumerable string-keyed properties, in the order [for .. in]
    visits them.  An object holds its properties in insertion order
    ([yaml.safeLoad] inserts them in document order) and enumerates
    them with [enumerate]; an array and a string have their indices;
    the other values have none. *)
Definition own_props (v : value) : list (string * value) :=
  match v with
  | JObj props => enumerate props
  | JArr elems => indexed_from 0 elems
  | JStr s => indexed_from 0 (chars s)
  | _ => []
  end.

(** The keys of [for (const k in v)]; nothing for null and undefined. *)
Definition for_in (v : value) : list string := map fst (own_props v).

Fixpoint lookup {A} (k : string) (ps : list (string * A)) : option A :=
  match ps with
  | [] => None
  | (k', a) :: ps' => if String.eqb k' k then Some a else lookup k ps'
  end.

Definition get_own (v : value) (k : string) : value :=
  match lookup k (own_props v) with
  | Some x => x
  | None => JUndefined
  end.

(** [v[k]], for the keys the program reads: those produced by
    [for .. in] and the literal ["on"]. *)
Definition get (v : value) (k : string) : result value :=
  match v with
  | JUndefined => Throw (PropertyOfNullish "undefined" k)
  | JNull => Throw (PropertyOfNullish "null" k)
  | _ => Ok (get_own v k)
  end.

(** [xs.includes(s)] for a string [s]: SameValueZero holds only between
    [s] and an equal string. *)
Definition same_string (s : string) (v : value) : bool :=
  match v with
  | JStr t => String.eqb t s
  | _ => false
  end.

Definition includes (xs : list value) (s : string) : bool :=
  existsb (same_string s) xs.

(** Whether [String(v)] returns.  An array joins the conversions of its
    elements (nothing for null and undefined).  An object answers
    ["[object Object]"] through the inherited [toString], unless it has
    a property of that name of its own: a loaded document holds data
    only, the property is not callable, and the inherited [valueOf]
    gives back the object, so the conversion throws. *)
Fixpoint converts (v : value) : bool :=
  match v with
  | JArr elems => forallb converts elems
  | JObj props =>
      match lookup "toString" props with
      | Some _ => false
      | None => true
      end
  | _ => true
  end.

(** The array [xs] inside a template literal: [`${xs}`]. *)
Definition interpolate (xs : list value) : result unit :=
  if forallb converts xs then Ok tt else Throw CannotConvert.

End JS.

Import JS.

Declare Scope js_scope.
Notation "x <- c ;; k" := (JS.bind c (fun x => k))
  (at level 100, c at next level, right associativity) : js_scope.
Local Open Scope js_scope.

(** ** [Map<string, V>]: entries in insertion order *)

Module JSMap.

Definition t (V : Type) : Type := list (string * V).

Definition empty {V} : t V := [].

(** [m.set(k, v)]: an existing key keeps its place and gets the new
    value, a new key goes to the end. *)
Fixpoint set {V} (m : t V) (k : string) (v : V) : t V :=
  match m with
  | [] => [(k, v)]
  | (k', v') :: m' =>
      if String.eqb k' k then (k', v) :: m' else (k', v') :: set m' k v
  end.

Definition get {V} (m : t V) (k : string) : option V := JS.lookup k m.

Definition entries {V} (m : t V) : list (string * V) := m.

Definition keys {V} (m : t V) : list string := map fst m.

End JSMap.

(** ** Configuration parser *)

Definition ALL_STATUS : list value :=
  [JStr "added"; JStr "modified"; JStr "removed"].

Record File : Type := { filename : string; status : string }.

(** [changedFile.status], under a name that the [status] parameter of
    [checkGlobs] does not hide. *)
Definition file_status (changedFile : File) : string := status changedFile.

(** The value stored under a label: [[globs, status]]. *)
Definition Rule : Type := (list string * list value)%type.

(** Body of the inner loop (lines 122-130), on the element already read. *)
Definition scanElement (st : Rule) (e : value) : result Rule :=
  let '(globs, status) := st in
  match e with
  | JStr s => Ok (globs ++ [s], status)
  | _ =>
      on <- JS.get e "on" ;;
      match on with
      | JStr s => Ok (globs, [JStr s])
      | JArr a => Ok (globs, a)
      | _ => Throw UnexpectedElement
      end
  end.

(** Lines 119-131: [globs], [status] and the loop over the array. *)
Definition scanArray (arr : value) : result Rule :=
  foldM (fun st temp => e <- JS.get arr temp ;; scanElement st e)
        (for_in arr) ([], ALL_STATUS).

(** Body of the outer loop (lines 116-137). *)
Definition parseLabel (configObject : value) (labelGlobs : JSMap.t Rule)
  (label : string) : result (JSMap.t Rule) :=
  v <- JS.get configObject label ;;
  match v with
  | JStr s => Ok (JSMap.set labelGlobs label ([s], ALL_STATUS))
  | JArr _ =>
      r <- scanArray v ;;
      Ok (JSMap.set labelGlobs label r)
  | _ => Throw (UnexpectedLabelType label)
  end.

Definition getLabelGlobMapFromObject (configObject : value)
  : result (JSMap.t Rule) :=
  foldM (parseLabel configObject) (for_in configObject) JSMap.empty.

(** ** Rule evaluation *)

Section Matching.

(** [new Minimatch(glob)]: the glob library compiles the pattern into
    a matcher, the function [matcher.match] of a path, or it throws (it
    refuses a pattern of more than 65536 characters). *)
Variable Minimatch : string -> result (string -> bool).

(** The inner loop of [checkGlobs] (lines 151-160) for one compiled
    matcher: [true] is the early [return true]. *)
Fixpoint checkFiles (matcher : string -> bool) (changedFiles : list File)
  (status : list value) : bool :=
  match changedFiles with
  | [] => false
  | changedFile :: rest =>
      if matcher (filename changedFile)
         && JS.includes status (file_status changedFile)
      then true
      else checkFiles matcher rest status
  end.

(** For each glob: the debug line of line 149, which interpolates
    [status]; the matcher of line 150; the loop over the files. *)
Fixpoint checkGlobs (changedFiles : list File) (globs : list string)
  (status : list value) : result bool :=
  match globs with
  | [] => Ok false
  | glob :: rest =>
      line149 <- interpolate status ;;
      matcher <- Minimatch glob ;;
      if checkFiles matcher changedFiles status
      then Ok true
      else checkGlobs changedFiles rest status
  end.

(** Lines 32-38 of [run]: the loop over [labelGlobs.entries()], with the
    debug line of line 34, which interpolates [globs] (strings) and
    [status]. *)
Definition selectLabels (changedFiles : list File)
  (labelGlobs : JSMap.t Rule) : result (list string) :=
  foldM
    (fun labels entry =>
       let '(label, (globs, status)) := entry in
       line34 <- interpolate status ;;
       matched <- checkGlobs changedFiles globs status ;;
       Ok (if (matched : bool) then labels ++ [label] else labels))
    (JSMap.entries labelGlobs) [].

End Matching.

(** ** The action and its collaborators *)

(** What a run does to the outside: console and toolkit output, and the
    calls on the repository client.  [IssuesRemoveLabel] is part of the
    client's interface; it is here so that its absence from every trace
    can be stated.  [core.debug] lines are not recorded; where building
    the line can throw (lines 34 and 149), the throw is modelled. *)
Inductive Event : Type :=
| ConsoleLog (msg : string)
| CoreError (error : Thrown)
| CoreSetFailed (msg : string)
| PullsListFiles (owner repo : string) (pull_number : Z)
| ReposGetContents (owner repo path ref : string)
| IssuesAddLabels (owner repo : string) (issue_number : Z)
    (labels : list string)
| IssuesRemoveLabel (owner repo : string) (issue_number : Z)
    (name : string).

(** [github.context], with [payload.pull_request] reduced to its
    [number]. *)
Record Context : Type := {
  payload_pull_request : option Z;
  repo_owner : string;
  repo_repo : string;
  sha : string
}.

(** [response.data] of [repos.getContents]. *)
Record Contents : Type := { content : string; encoding : string }.

(** The environment of one run.  A field returns [Throw] where the
    library call raises: [core.getInput(name, {required: true})] on a
    missing input, a client call on a transport or API failure,
    [Buffer.from(..).toString()] and [yaml.safeLoad] on bad data. *)
Record World : Type := {
  core_getInput : string -> result string;
  context : Context;
  pulls_listFiles : string -> string -> Z -> result (list File);
  repos_getContents : string -> string -> string -> string -> result Contents;
  Buffer_toString : string -> string -> result string;
  yaml_safeLoad : string -> result value;
  issues_addLabels : string -> string -> Z -> list string -> result unit
}.

(** Computations that leave a trace and may throw. *)
Definition Act (A : Type) : Type := (list Event * result A)%type.

Definition act_ret {A} (a : A) : Act A := ([], Ok a).

Definition act_bind {A B} (m : Act A) (k : A -> Act B) : Act B :=
  match m with
  | (t1, Ok a) => let '(t2, r) := k a in (t1 ++ t2, r)
  | (t1, Throw e) => (t1, Throw e)
  end.

Definition lift {A} (r : result A) : Act A := ([], r).

Definition emit (ev : Event) : Act unit := ([ev], Ok tt).

(** A collaborator call: the call is made, then it returns or throws. *)
Definition call {A} (ev : Event) (r : result A) : Act A := ([ev], r).

Declare Scope act_scope.
Notation "x <- c ;; k" := (act_bind c (fun x => k))
  (at level 100, c at next level, right associativity) : act_scope.
Notation "c ;;; k" := (act_bind c (fun _ => k))
  (at level 100, right associativity) : act_scope.

Definition trace_of {A} (m : Act A) : list Event := fst m.
Definition outcome_of {A} (m : Act A) : result A := snd m.

Section Action.

Variable Minimatch : string -> result (string -> bool).
Variable w : World.

Local Open Scope act_scope.

Definition getPrNumber : option Z := payload_pull_request (context w).

(** [!prNumber]: undefined, or the number 0. *)
Definition falsy (prNumber : option Z) : bool :=
  match prNumber with
  | None => true
  | Some n => Z.eqb n 0
  end.

Definition getChangedFiles (prNumber : Z) : Act (list File) :=
  let owner := repo_owner (context w) in
  let repo := repo_repo (context w) in
  call (PullsListFiles owner repo prNumber)
       (pulls_listFiles w owner repo prNumber).

Definition fetchContent (repoPath : string) : Act string :=
  let owner := repo_owner (context w) in
  let repo := repo_repo (context w) in
  let ref := sha (context w) in
  response <- call (ReposGetContents owner repo repoPath ref)
                   (repos_getContents w owner repo repoPath ref) ;;
  lift (Buffer_toString w (content response) (encoding response)).

Definition getLabelGlobs (configurationPath : string)
  : Act (JSMap.t Rule) :=
  configurationContent <- fetchContent configurationPath ;;
  configObject <- lift (yaml_safeLoad w configurationContent) ;;
  lift (getLabelGlobMapFromObject configObject).

Definition addLabels (prNumber : Z) (labels : list string) : Act unit :=
  let owner := repo_owner (context w) in
  let repo := repo_repo (context w) in
  call (IssuesAddLabels owner repo prNumber labels)
       (issues_addLabels w owner repo prNumber labels).

(** Lines 14-38 of [run].  [None] is the early [return] of line 20;
    otherwise the pull-request number and the [labels] array.
    Building the client from the token (line 23) calls nothing. *)
Definition selection : Act (option (Z * list string)) :=
  token <- lift (core_getInput w "repo-token") ;;
  configPath <- lift (core_getInput w "configuration-path") ;;
  let prNumber := getPrNumber in
  if falsy prNumber then
    emit (ConsoleLog
            "Could not get pull request number from context, exiting") ;;;
    act_ret None
  else
    match prNumber with
    | None => act_ret None
    | Some n =>
        changedFiles <- getChangedFiles n ;;
        labelGlobs <- getLabelGlobs configPath ;;
        labels <- lift (selectLabels Minimatch changedFiles labelGlobs) ;;
        act_ret (Some (n, labels))
    end.

(** The [try] block: [selection], then lines 40-42. *)
Definition tryBlock : Act unit :=
  sel <- selection ;;
  match sel with
  | None => act_ret tt
  | Some (prNumber, labels) =>
      if Nat.ltb 0 (List.length labels)
      then addLabels prNumber labels
      else act_ret tt
  end.

(** [run]: the [try] block and the [catch] of lines 43-46.  The promise
    it returns always resolves; what is left is the trace. *)
Definition run : list Event :=
  match tryBlock with
  | (t, Ok _) => t
  | (t, Throw error) => t ++ [CoreError error; CoreSetFailed (message error)]
  end.

End Action.

(** What the [catch] block adds to the trace. *)
Definition catch_tail (r : result unit) : list Event :=
  match r with
  | Ok _ => []
  | Throw error => [CoreError error; CoreSetFailed (message error)]
  end.

(** A run signals failure when it reaches [core.setFailed]. *)
Definition is_failure (ev : Event) : bool :=
  match ev with
  | CoreSetFailed _ => true
  | _ => false
  end.

Definition is_client_call (ev : Event) : bool :=
  match ev with
  | PullsListFiles _ _ _ | ReposGetContents _ _ _ _
  | IssuesAddLabels _ _ _ _ | IssuesRemoveLabel _ _ _ _ => true
  | _ => false
  end.

(** ** The parser's contract, in the words of the specification *)

Definition is_string (v : value) : bool :=
  match v with
  | JStr _ => true
  | _ => false
  end.

Definition is_array (v : value) : bool :=
  match v with
  | JArr _ => true
  | _ => false
  end.

(** The status filter an [on] entry sets: the entry is an object whose
    [on] key holds a string (a one-element filter) or a sequence (the
    filter itself, whatever its elements). *)
Definition on_filter (e : value) : option (list value) :=
  match e with
  | JObj props =>
      match lookup "on" props with
      | Some (JStr s) => Some [JStr s]
      | Some (JArr a) => Some a
      | _ => None
      end
  | _ => None
  end.

Definition is_on_entry (e : value) : bool :=
  match on_filter e with
  | Some _ => true
  | None => false
  end.

(** As [is_on_entry], with the sequence restricted to strings. *)
Definition is_on_entry_of_strings (e : value) : bool :=
  match e with
  | JObj props =>
      match lookup "on" props with
      | Some (JStr _) => true
      | Some (JArr a) => forallb is_string a
      | _ => false
      end
  | _ => false
  end.

Definition accepted_element (e : value) : bool :=
  is_string e || is_on_entry e.

(** The string elements, in order. *)
Definition spec_globs (es : list value) : list string :=
  flat_map (fun e => match e with JStr s => [s] | _ => [] end) es.

(** The filters of the [on] entries, in order. *)
Definition on_filters (es : list value) : list (list value) :=
  flat_map (fun e => match on_filter e with Some f => [f] | None => [] end) es.

(** Last [on] entry wins; all statuses when there is none. *)
Definition spec_status (es : list value) : list value :=
  last (on_filters es) ALL_STATUS.

Definition last_on (es : list value) : option (list value) :=
  last (map Some (on_filters es)) None.

(** A label of the configuration together with its value. *)
Definition label_value (configObject : value) (label : string) (v : value)
  : Prop :=
  In label (for_in configObject) /\ get_own configObject label = v.

Definition bad_label (configObject : value) (label : string) : Prop :=
  exists v, label_value configObject label v
            /\ is_string v = false /\ is_array v = false.

(** Some element of some label's sequence fails the test [ok]. *)
Definition bad_element (ok : value -> bool) (configObject : value) : Prop :=
  exists label es e,
    label_value configObject label (JArr es) /\ In e es /\ ok e = false.

Definition throws (configObject : value) : Prop :=
  exists e, getLabelGlobMapFromObject configObject = Throw e.

(** The rule invariant of the data model. *)
Definition valid_filter (f : list value) : Prop :=
  f <> [] /\ Forall (fun v => In v ALL_STATUS) f.

Definition rule_invariant (r : Rule) : Prop :=
  fst r <> [] /\ valid_filter (snd r).

(** The values for which the parser's rule meets the invariant. *)
Definition guarded (v : value) : Prop :=
  match v with
  | JStr _ => True
  | JArr es =>
      (exists s, In (JStr s) es)
      /\ (forall f, last_on es = Some f -> valid_filter f)
  | _ => False
  end.

(** The rule the parser computes from a label's value alone. *)
Definition ruleOfValue (label : string) (v : value) : result Rule :=
  match v with
  | JStr s => Ok ([s], ALL_STATUS)
  | JArr _ => scanArray v
  | _ => Throw (UnexpectedLabelType label)
  end.

(** The test of line 35 on one entry of the rule set: its rule
    evaluates to true. *)
Definition selected (Minimatch : string -> result (string -> bool))
  (changedFiles : list File) (entry : string * Rule) : bool :=
  match checkGlobs Minimatch changedFiles (fst (snd entry)) (snd (snd entry))
  with
  | Ok matched => matched
  | Throw _ => false
  end.

(** The glob compiles and its matcher accepts the path. *)
Definition glob_matches (Minimatch : string -> result (string -> bool))
  (glob path : string) : bool :=
  match Minimatch glob with
  | Ok matcher => matcher path
  | Throw _ => false
  end.

Definition compiles (Minimatch : string -> result (string -> bool))
  (glob : string) : Prop :=
  exists matcher, Minimatch glob = Ok matcher.

(** Some glob of the rule and some changed file go together. *)
Definition rule_matches (Minimatch : string -> result (string -> bool))
  (changedFiles : list File) (globs : list string) (statusFilter : list value)
  : Prop :=
  exists glob f matcher,
    In glob globs /\ In f changedFiles
    /\ Minimatch glob = Ok matcher
    /\ matcher (filename f) = true
    /\ In (JStr (status f)) statusFilter.

(** One iteration of the loop of lines 32-38 completes. *)
Definition entry_returns (Minimatch : string -> result (string -> bool))
  (changedFiles : list File) (entry : string * Rule) : Prop :=
  forallb converts (snd (snd entry)) = true
  /\ exists matched,
       checkGlobs Minimatch changedFiles (fst (snd entry)) (snd (snd entry))
       = Ok matched.

(** Nothing throws while the rule is evaluated: the filter has a
    string conversion and every glob compiles. *)
Definition evaluable (Minimatch : string -> result (string -> bool))
  (rule : Rule) : Prop :=
  forallb converts (snd rule) = true
  /\ forall glob, In glob (fst rule) -> compiles Minimatch glob.

(** An array index before another one, in numeric order. *)
Definition index_le (k1 k2 : string) : Prop :=
  match array_index k1, array_index k2 with
  | Some n1, Some n2 => (n1 <= n2)%N
  | _, _ => False
  end.

(** A matcher for worked examples: a pattern matches the path equal to
    it. *)
Definition literal_match (pattern : string) : result (string -> bool) :=
  Ok (String.eqb pattern).

(** The same, with the library's refusal of long patterns. *)
Definition limited_match (pattern : string) : result (string -> bool) :=
  if N.ltb 65536 (N.of_nat (String.length pattern))
  then Throw (External "pattern is too long")
  else Ok (String.eqb pattern).

(** A pattern of 65537 characters. *)
Definition long_glob : string :=
  string_of_list_ascii (repeat "a"%char (N.to_nat 65537)).

(** Worlds for worked examples: the inputs are supplied or not, the
    event carries the pull request [pr] or none, the client lists
    [files], and the configuration file parses to [config]. *)
Definition sample_context (pr : option Z) : Context :=
  {| payload_pull_request := pr;
     repo_owner := "octo";
     repo_repo := "demo";
     sha := "0a1b2c" |}.

Definition sample_world (inputs_supplied : bool) (pr : option Z)
  (files : list File) (config : value) : World :=
  {| core_getInput := fun name =>
       if inputs_supplied
       then Ok (if String.eqb name "repo-token"
                then "secret" else ".github/labeler.yml")
       else Throw (External ("Input required and not supplied: " ++ name));
     context := sample_context pr;
     pulls_listFiles := fun _ _ _ => Ok files;
     repos_getContents := fun _ _ _ _ =>
       Ok {| content := "ZG9jczogJyoubWQn"; encoding := "base64" |};
     Buffer_toString := fun c _ => Ok c;
     yaml_safeLoad := fun _ => Ok config;
     issues_addLabels := fun _ _ _ _ => Ok tt |}.

Definition is_addLabels (ev : Event) : bool :=
  match ev with
  | IssuesAddLabels _ _ _ _ => true
  | _ => false
  end.

(** What it takes for a run to reach line 40 with the pull request [n]
    and the label list [labels]: both inputs are supplied, the event
    carries the pull request [n] (not 0), the client lists the changed
    files, the configuration is fetched, decoded, loaded and parsed, and
    the loop of lines 32-38 completes with [labels]. *)
Definition selects (Minimatch : string -> result (string -> bool)) (w : World)
  (n : Z) (labels : list string) : Prop :=
  exists token path files response text configObject ruleSet,
    core_getInput w "repo-token" = Ok token
    /\ core_getInput w "configuration-path" = Ok path
    /\ payload_pull_request (context w) = Some n
    /\ n <> 0%Z
    /\ pulls_listFiles w (repo_owner (context w)) (repo_repo (context w)) n
       = Ok files
    /\ repos_getContents w (repo_owner (context w)) (repo_repo (context w))
         path (sha (context w)) = Ok response
    /\ Buffer_toString w (content response) (encoding response) = Ok text
    /\ yaml_safeLoad w text = Ok configObject
    /\ getLabelGlobMapFromObject configObject = Ok ruleSet
    /\ selectLabels Minimatch files ruleSet = Ok labels.

(** The two lines of the [catch] block, for the error caught. *)
Definition fail_tail (error : Thrown) : list Event :=
  [CoreError error; CoreSetFailed (message error)].

(** A label whose value the parser takes: a string, or a sequence of
    strings and [on] entries. *)
Definition label_ok (configObject : value) (label : string) : bool :=
  match get_own configObject label with
  | JStr _ => true
  | JArr es => forallb accepted_element es
  | _ => false
  end.

(** The error the inner loop raises on an element it does not take. *)
Definition element_error (e : value) : Thrown :=
  match e with
  | JUndefined => PropertyOfNullish "undefined" "on"
  | JNull => PropertyOfNullish "null" "on"
  | _ => UnexpectedElement
  end.

(** The three client calls of a run, in the order of the code. *)
Definition client_calls (w : World) (n : Z) (path : string)
  (labels : list string) : list Event :=
  [PullsListFiles (repo_owner (context w)) (repo_repo (context w)) n;
   ReposGetContents (repo_owner (context w)) (repo_repo (context w))
     path (sha (context w));
   IssuesAddLabels (repo_owner (context w)) (repo_repo (context w))
     n labels].

(** * Properties *)

(** ** Loops, property lookup and maps *)

Lemma foldM_map {A B S} (h : A -> B) (f : S -> B -> result S) xs s :
  foldM f (map h xs) s = foldM (fun st x => f st (h x)) xs s.
Proof.
  revert s. induction xs as [|x xs IH]; intros s; simpl; [reflexivity|].
  destruct (f s (h x)); simpl; auto.
Qed.

Lemma foldM_ext_in {A S} (f g : S -> A -> result S) xs s :
  (forall x, In x xs -> forall st, f st x = g st x) ->
  foldM f xs s = foldM g xs s.
Proof.
  revert s. induction xs as [|x xs IH]; intros s H; simpl; [reflexivity|].
  rewrite (H x (or_introl eq_refl)).
  destruct (g s x); simpl; [|reflexivity].
  apply IH. intros y Hy. apply H. now right.
Qed.

Lemma foldM_app {A S} (f : S -> A -> result S) xs ys s :
  foldM f (xs ++ ys) s = JS.bind (foldM f xs s) (foldM f ys).
Proof.
  revert s. induction xs as [|x xs IH]; intros s; simpl; [reflexivity|].
  destruct (f s x); simpl; auto.
Qed.

Lemma lookup_in_nodup {A} k (a : A) ps :
  NoDup (map fst ps) -> In (k, a) ps -> lookup k ps = Some a.
Proof.
  induction ps as [|[k' a'] ps IH]; simpl; intros Hnd Hin; [contradiction|].
  inversion Hnd as [|? ? Hnotin Hnd']; subst.
  destruct Hin as [Heq|Hin].
  - inversion Heq; subst. now rewrite String.eqb_refl.
  - destruct (String.eqb_spec k' k) as [->|_].
    + exfalso. apply Hnotin. apply (in_map fst) in Hin. exact Hin.
    + auto.
Qed.

Lemma lookup_none {A} k (ps : list (string * A)) :
  ~ In k (map fst ps) -> lookup k ps = None.
Proof.
  induction ps as [|[k' a'] ps IH]; simpl; intros H; [reflexivity|].
  destruct (String.eqb_spec k' k) as [->|_]; [exfalso; auto|auto].
Qed.

Lemma index_key_inj i j : index_key i = index_key j -> i = j.
Proof.
  unfold index_key. intros H.
  apply DecimalNat.Unsigned.to_uint_inj.
  assert (E : Some (Nat.to_uint i) = Some (Nat.to_uint j)).
  { rewrite <- !NilEmpty.usu. now rewrite H. }
  now inversion E.
Qed.

Lemma index_key_not_on i : index_key i <> "on".
Proof.
  unfold index_key. destruct (Nat.to_uint i); simpl; discriminate.
Qed.

Lemma indexed_from_keys {A} (xs : list A) i k :
  In k (map fst (indexed_from i xs)) -> exists j, i <= j /\ k = index_key j.
Proof.
  revert i. induction xs as [|x xs IH]; simpl; intros i H; [contradiction|].
  destruct H as [<-|H].
  - exists i. split; [lia|reflexivity].
  - destruct (IH _ H) as (j & Hj & ->). exists j. split; [lia|reflexivity].
Qed.

Lemma indexed_from_nodup {A} (xs : list A) i :
  NoDup (map fst (indexed_from i xs)).
Proof.
  revert i. induction xs as [|x xs IH]; simpl; intros i; constructor; auto.
  intros H. apply indexed_from_keys in H. destruct H as (j & Hj & E).
  apply index_key_inj in E. lia.
Qed.

Lemma indexed_from_values {A} (xs : list A) i :
  map snd (indexed_from i xs) = xs.
Proof.
  revert i. induction xs as [|x xs IH]; simpl; intros i; [reflexivity|].
  now rewrite IH.
Qed.

Lemma lookup_app_right {A} k (l1 l2 : list (string * A)) :
  ~ In k (map fst l1) -> lookup k (l1 ++ l2) = lookup k l2.
Proof.
  induction l1 as [|[k' a] l1 IH]; simpl; intros H; [reflexivity|].
  destruct (String.eqb_spec k' k) as [->|_]; [exfalso; auto|auto].
Qed.

Lemma insert_index_in {A} n (p q : A) m sorted :
  In (m, q) (insert_index n p sorted) <-> (m, q) = (n, p) \/ In (m, q) sorted.
Proof.
  induction sorted as [|[m' q'] sorted IH]; simpl.
  - intuition congruence.
  - destruct (N.leb n m'); simpl; [intuition congruence|].
    rewrite IH. intuition congruence.
Qed.

Lemma index_props_in {A} (props : list (string * A)) n p :
  In (n, p) (index_props props) <-> In p props /\ array_index (fst p) = Some n.
Proof.
  induction props as [|q props IH]; simpl; [tauto|].
  destruct (array_index (fst q)) as [m|] eqn:E.
  - rewrite insert_index_in, IH. split.
    + intros [[= -> ->]|[H1 H2]]; auto.
    + intros [[->|H1] H2]; [left; congruence|auto].
  - rewrite IH. split; [tauto|].
    intros [[->|H1] H2]; [congruence|auto].
Qed.

Lemma lookup_named {A} k (props : list (string * A)) :
  is_named k = true -> lookup k (named_props props) = lookup k props.
Proof.
  intros Hk. unfold named_props.
  induction props as [|[k' a] props IH]; simpl; [reflexivity|].
  destruct (is_named k') eqn:E; simpl.
  - now rewrite IH.
  - destruct (String.eqb_spec k' k) as [->|_]; [congruence|exact IH].
Qed.

(** Reading a named property does not depend on the enumeration. *)
Lemma lookup_enumerate {A} k (props : list (string * A)) :
  is_named k = true -> lookup k (enumerate props) = lookup k props.
Proof.
  intros Hk. unfold enumerate.
  rewrite lookup_app_right; [now apply lookup_named|].
  rewrite map_map. intros H. apply in_map_iff in H.
  destruct H as ([n p] & <- & Hin). apply index_props_in in Hin.
  destruct Hin as [_ Hn]. unfold is_named in Hk. simpl in Hk.
  now rewrite Hn in Hk.
Qed.

Lemma index_props_named {A} (props : list (string * A)) :
  forallb (fun p => is_named (fst p)) props = true -> index_props props = [].
Proof.
  induction props as [|p props IH]; simpl; [reflexivity|].
  intros H. apply andb_true_iff in H. destruct H as [Hp Hps].
  unfold is_named in Hp. destruct (array_index (fst p)); [discriminate|auto].
Qed.

(** Without index-named properties, enumeration is insertion order. *)
Lemma enumerate_named {A} (props : list (string * A)) :
  forallb (fun p => is_named (fst p)) props = true -> enumerate props = props.
Proof.
  intros H. unfold enumerate, named_props.
  rewrite (index_props_named _ H). simpl.
  induction props as [|p props IH]; simpl; [reflexivity|].
  simpl in H. apply andb_true_iff in H. destruct H as [Hp Hps].
  rewrite Hp. f_equal. auto.
Qed.

Lemma indexed_from_no_on {A} (xs : list A) i :
  lookup "on" (indexed_from i xs) = None.
Proof.
  apply lookup_none. intros H. apply indexed_from_keys in H.
  destruct H as (j & _ & E). symmetry in E. now apply index_key_not_on in E.
Qed.

Lemma get_set {V} (m : JSMap.t V) k v k' :
  JSMap.get (JSMap.set m k v) k'
  = if String.eqb k k' then Some v else JSMap.get m k'.
Proof.
  unfold JSMap.get.
  induction m as [|[k0 v0] m IH]; simpl.
  - reflexivity.
  - destruct (String.eqb_spec k0 k) as [->|Hk]; simpl.
    + destruct (String.eqb k k'); reflexivity.
    + rewrite IH.
      destruct (String.eqb_spec k0 k') as [->|_]; [|reflexivity].
      destruct (String.eqb_spec k k') as [->|_]; [contradiction|reflexivity].
Qed.

Lemma keys_set_old {V} (m : JSMap.t V) k v :
  In k (JSMap.keys m) -> JSMap.keys (JSMap.set m k v) = JSMap.keys m.
Proof.
  unfold JSMap.keys.
  induction m as [|[k0 v0] m IH]; simpl; intros H; [contradiction|].
  destruct (String.eqb_spec k0 k) as [->|Hk]; simpl; [reflexivity|].
  f_equal. apply IH. destruct H; [contradiction|assumption].
Qed.

Lemma keys_set_new {V} (m : JSMap.t V) k v :
  ~ In k (JSMap.keys m) -> JSMap.keys (JSMap.set m k v) = JSMap.keys m ++ [k].
Proof.
  unfold JSMap.keys.
  induction m as [|[k0 v0] m IH]; simpl; intros H; [reflexivity|].
  destruct (String.eqb_spec k0 k) as [->|Hk]; simpl.
  - exfalso. apply H. now left.
  - f_equal. apply IH. intros Hin. apply H. now right.
Qed.

Lemma keys_set_nodup {V} (m : JSMap.t V) k v :
  NoDup (JSMap.keys m) -> NoDup (JSMap.keys (JSMap.set m k v)).
Proof.
  intros Hnd. destruct (in_dec string_dec k (JSMap.keys m)) as [Hin|Hout].
  - now rewrite keys_set_old.
  - rewrite keys_set_new by assumption.
    apply NoDup_app; [assumption|repeat constructor; intros []|].
    intros x Hx [<-|[]]. contradiction.
Qed.

(** ** The scan of one sequence *)

Lemma last_cons_default {A} (f d : A) l : last (f :: l) d = last l f.
Proof.
  revert f d. induction l as [|x l IH]; intros f d; [reflexivity|].
  change (last (f :: x :: l) d) with (last (x :: l) d).
  now rewrite !IH.
Qed.

(** What one iteration does, by the shape of the element. *)
Lemma scanElement_cases globs status e :
  scanElement (globs, status) e =
  match e with
  | JStr s => Ok (globs ++ [s], status)
  | JUndefined => Throw (PropertyOfNullish "undefined" "on")
  | JNull => Throw (PropertyOfNullish "null" "on")
  | _ =>
      match on_filter e with
      | Some f => Ok (globs, f)
      | None => Throw UnexpectedElement
      end
  end.
Proof.
  destruct e; simpl; try reflexivity.
  - unfold get_own; simpl. now rewrite indexed_from_no_on.
  - unfold get_own. cbn [own_props].
    rewrite (lookup_enumerate "on" props eq_refl).
    destruct (lookup "on" props) as [[]|]; reflexivity.
Qed.

Lemma scanElement_accepted globs status e :
  accepted_element e = true ->
  scanElement (globs, status) e =
  Ok (globs ++ spec_globs [e], last (on_filters [e]) status).
Proof.
  unfold accepted_element, is_on_entry, spec_globs, on_filters.
  rewrite scanElement_cases.
  destruct e; simpl; try discriminate; try reflexivity.
  destruct (lookup "on" props) as [[]|]; simpl; try discriminate;
    now rewrite app_nil_r.
Qed.

Lemma scanElement_rejected st e :
  accepted_element e = false -> exists err, scanElement st e = Throw err.
Proof.
  destruct st as [globs status].
  unfold accepted_element, is_on_entry. rewrite scanElement_cases.
  destruct e; simpl; try discriminate; eauto.
  destruct (lookup "on" props) as [[]|]; simpl; try discriminate; eauto.
Qed.

(** The loop over the indices of an array visits its elements in order. *)
Lemma scanArray_elements es :
  scanArray (JArr es) = foldM scanElement es ([], ALL_STATUS).
Proof.
  unfold scanArray, for_in. simpl own_props.
  rewrite foldM_map.
  rewrite <- (indexed_from_values es 0) at 2.
  rewrite foldM_map.
  apply foldM_ext_in. intros [k e] Hin st. simpl.
  unfold get_own. simpl own_props.
  rewrite (lookup_in_nodup k e); [reflexivity| |assumption].
  apply indexed_from_nodup.
Qed.

Lemma scan_accepted es : forall globs status,
  forallb accepted_element es = true ->
  foldM scanElement es (globs, status)
  = Ok (globs ++ spec_globs es, last (on_filters es) status).
Proof.
  induction es as [|e es IH]; intros globs status H; cbn [foldM].
  - simpl. now rewrite app_nil_r.
  - simpl in H. apply andb_true_iff in H. destruct H as [He Hes].
    rewrite (scanElement_accepted _ _ _ He). cbn [JS.bind].
    rewrite (IH _ _ Hes). f_equal. f_equal.
    + rewrite <- app_assoc. f_equal.
      unfold spec_globs. simpl. now rewrite app_nil_r.
    + unfold on_filters. simpl. rewrite app_nil_r.
      destruct (on_filter e) as [f|]; simpl; [|reflexivity].
      symmetry. apply last_cons_default.
Qed.

Lemma scan_rejected es : forall st,
  forallb accepted_element es = false ->
  exists err, foldM scanElement es st = Throw err.
Proof.
  induction es as [|e es IH]; intros st H; cbn [foldM forallb] in *;
    [discriminate|].
  destruct (accepted_element e) eqn:He; cbn [andb] in H.
  - destruct st as [globs status].
    rewrite (scanElement_accepted _ _ _ He). cbn [JS.bind]. now apply IH.
  - destruct (scanElement_rejected st e He) as [err ->]. simpl. eauto.
Qed.

Lemma scanArray_ok_iff es r :
  scanArray (JArr es) = Ok r
  <-> forallb accepted_element es = true
      /\ r = (spec_globs es, spec_status es).
Proof.
  rewrite scanArray_elements. split.
  - intros H. destruct (forallb accepted_element es) eqn:E.
    + rewrite (scan_accepted es [] ALL_STATUS E) in H.
      inversion H. auto.
    + destruct (scan_rejected es ([], ALL_STATUS) E) as [err Herr].
      congruence.
  - intros [E ->]. now rewrite (scan_accepted es [] ALL_STATUS E).
Qed.

(** ** The loop over the labels *)

Lemma for_in_not_nullish cfg l :
  In l (for_in cfg) -> JS.get cfg l = Ok (get_own cfg l).
Proof. destruct cfg; simpl; intros H; try contradiction; reflexivity. Qed.

Lemma parseLabel_rule cfg m l :
  In l (for_in cfg) ->
  parseLabel cfg m l
  = JS.bind (ruleOfValue l (get_own cfg l)) (fun r => Ok (JSMap.set m l r)).
Proof.
  intros H. unfold parseLabel. rewrite (for_in_not_nullish _ _ H).
  cbn [JS.bind]. destruct (get_own cfg l); reflexivity.
Qed.

Lemma fold_parse_ok cfg ks : incl ks (for_in cfg) ->
  forall m0 rs, foldM (parseLabel cfg) ks m0 = Ok rs ->
  (forall l, In l ks ->
     exists r, ruleOfValue l (get_own cfg l) = Ok r
               /\ JSMap.get rs l = Some r)
  /\ (forall l, ~ In l ks -> JSMap.get rs l = JSMap.get m0 l).
Proof.
  induction ks as [|k ks IH]; intros Hincl m0 rs H; cbn [foldM] in H.
  - inversion H; subst. split; [intros l []|reflexivity].
  - assert (Hk : In k (for_in cfg)) by (apply Hincl; now left).
    assert (Hks : incl ks (for_in cfg))
      by (intros x Hx; apply Hincl; now right).
    rewrite (parseLabel_rule _ _ _ Hk) in H.
    destruct (ruleOfValue k (get_own cfg k)) as [r|err] eqn:Hr;
      cbn [JS.bind] in H; [|discriminate].
    destruct (IH Hks _ _ H) as [Hin Hout]. split.
    + intros l [<-|Hl]; [|now apply Hin].
      destruct (in_dec string_dec k ks) as [Hl|Hl]; [now apply Hin|].
      exists r. split; [assumption|].
      rewrite (Hout _ Hl), get_set. now rewrite String.eqb_refl.
    + intros l Hl. rewrite Hout by (intros Hn; apply Hl; now right).
      rewrite get_set. destruct (String.eqb_spec k l) as [->|_];
        [exfalso; apply Hl; now left|reflexivity].
Qed.

Lemma fold_parse_throw cfg ks : incl ks (for_in cfg) ->
  forall m0 err, foldM (parseLabel cfg) ks m0 = Throw err ->
  exists l, In l ks /\ ruleOfValue l (get_own cfg l) = Throw err.
Proof.
  induction ks as [|k ks IH]; intros Hincl m0 err H; cbn [foldM] in H;
    [discriminate|].
  assert (Hk : In k (for_in cfg)) by (apply Hincl; now left).
  assert (Hks : incl ks (for_in cfg))
    by (intros x Hx; apply Hincl; now right).
  rewrite (parseLabel_rule _ _ _ Hk) in H.
  destruct (ruleOfValue k (get_own cfg k)) as [r|err'] eqn:Hr;
    cbn [JS.bind] in H.
  - destruct (IH Hks _ _ H) as (l & Hl & Hthrow).
    exists l. split; [now right|assumption].
  - inversion H; subst. exists k. split; [now left|assumption].
Qed.

Lemma fold_parse_keys cfg ks : incl ks (for_in cfg) ->
  forall m0 rs, foldM (parseLabel cfg) ks m0 = Ok rs ->
  NoDup (JSMap.keys m0 ++ ks) -> JSMap.keys rs = JSMap.keys m0 ++ ks.
Proof.
  induction ks as [|k ks IH]; intros Hincl m0 rs H Hnd; cbn [foldM] in H.
  - inversion H; subst. now rewrite app_nil_r.
  - assert (Hk : In k (for_in cfg)) by (apply Hincl; now left).
    rewrite (parseLabel_rule _ _ _ Hk) in H.
    destruct (ruleOfValue k (get_own cfg k)) as [r|err]; cbn [JS.bind] in H;
      [|discriminate].
    assert (Hnew : ~ In k (JSMap.keys m0)).
    { intros Hin. apply NoDup_remove_2 in Hnd. apply Hnd.
      apply in_or_app. now left. }
    apply IH in H.
    + rewrite H, keys_set_new by assumption. now rewrite <- app_assoc.
    + intros x Hx. apply Hincl. now right.
    + rewrite keys_set_new by assumption. now rewrite <- app_assoc.
Qed.

Lemma fold_parse_nodup cfg ks :
  forall m0 rs, foldM (parseLabel cfg) ks m0 = Ok rs ->
  NoDup (JSMap.keys m0) -> NoDup (JSMap.keys rs).
Proof.
  induction ks as [|k ks IH]; intros m0 rs H Hnd; cbn [foldM] in H.
  - now inversion H; subst.
  - destruct (parseLabel cfg m0 k) as [m1|err] eqn:Hm1; cbn [JS.bind] in H;
      [|discriminate].
    apply (IH _ _ H). unfold parseLabel in Hm1.
    destruct (JS.get cfg k) as [v|]; cbn [JS.bind] in Hm1; [|discriminate].
    destruct v; try discriminate.
    + inversion Hm1; subst. now apply keys_set_nodup.
    + destruct (scanArray (JArr elems)); cbn [JS.bind] in Hm1;
        [|discriminate].
      inversion Hm1; subst. now apply keys_set_nodup.
Qed.

(** The rule stored under a label is the rule of the label's value. *)
Lemma parser_rule cfg rs l :
  getLabelGlobMapFromObject cfg = Ok rs ->
  In l (for_in cfg) ->
  exists r, ruleOfValue l (get_own cfg l) = Ok r /\ JSMap.get rs l = Some r.
Proof.
  intros H Hl.
  destruct (fold_parse_ok cfg (for_in cfg) (incl_refl _) _ _ H) as [Hin _].
  now apply Hin.
Qed.

Lemma parser_rule_inv cfg rs l r :
  getLabelGlobMapFromObject cfg = Ok rs ->
  JSMap.get rs l = Some r ->
  In l (for_in cfg) /\ ruleOfValue l (get_own cfg l) = Ok r.
Proof.
  intros H Hget.
  destruct (fold_parse_ok cfg (for_in cfg) (incl_refl _) _ _ H) as [Hin Hout].
  destruct (in_dec string_dec l (for_in cfg)) as [Hl|Hl].
  - split; [assumption|]. destruct (Hin _ Hl) as (r' & Hr' & Hg). congruence.
  - rewrite (Hout _ Hl) in Hget. discriminate.
Qed.

Lemma parser_keys_nodup cfg rs :
  getLabelGlobMapFromObject cfg = Ok rs -> NoDup (JSMap.keys rs).
Proof.
  intros H. apply (fold_parse_nodup _ _ _ _ H). constructor.
Qed.

(** ** Rule evaluation *)

Lemma includes_iff xs s : JS.includes xs s = true <-> In (JStr s) xs.
Proof.
  unfold JS.includes. rewrite existsb_exists. split.
  - intros (v & Hin & Hv). destruct v; simpl in Hv; try discriminate.
    apply String.eqb_eq in Hv. now subst.
  - intros H. exists (JStr s). split; [assumption|]. simpl.
    apply String.eqb_refl.
Qed.

Lemma checkFiles_iff matcher files sts :
  checkFiles matcher files sts = true
  <-> exists f, In f files /\ matcher (filename f) = true
                /\ In (JStr (status f)) sts.
Proof.
  induction files as [|f files IH]; simpl.
  - split; [discriminate|intros (f & [] & _)].
  - destruct (matcher (filename f) && JS.includes sts (file_status f))
      eqn:E.
    + split; [intros _|reflexivity].
      apply andb_true_iff in E. destruct E as [Hm Hi].
      apply includes_iff in Hi. exists f. auto.
    + rewrite IH. split.
      * intros (g & Hin & Hg). exists g. auto.
      * intros (g & [<-|Hin] & Hm & Hs); [|exists g; auto].
        apply includes_iff in Hs. unfold file_status in E.
        rewrite Hm, Hs in E. discriminate.
Qed.

Lemma checkGlobs_cons m files g rest sts :
  checkGlobs m files (g :: rest) sts =
  if forallb converts sts then
    match m g with
    | Ok matcher =>
        if checkFiles matcher files sts then Ok true
        else checkGlobs m files rest sts
    | Throw e => Throw e
    end
  else Throw CannotConvert.
Proof.
  cbn [checkGlobs]. unfold interpolate.
  destruct (forallb converts sts); cbn [JS.bind]; [|reflexivity].
  destruct (m g); reflexivity.
Qed.

(** Whenever [checkGlobs] returns, it says whether the rule matches. *)
Lemma checkGlobs_sound m files globs sts b :
  checkGlobs m files globs sts = Ok b ->
  (b = true <-> rule_matches m files globs sts).
Proof.
  unfold rule_matches. revert b.
  induction globs as [|g globs IH]; intros b H.
  - inversion H; subst. split; [discriminate|].
    intros (g & f & mt & [] & _).
  - rewrite checkGlobs_cons in H.
    destruct (forallb converts sts); [|discriminate].
    destruct (m g) as [matcher|] eqn:Hg; [|discriminate].
    destruct (checkFiles matcher files sts) eqn:E.
    + inversion H; subst. split; [intros _|reflexivity].
      apply checkFiles_iff in E. destruct E as (f & Hf & Hm & Hs).
      exists g, f, matcher. repeat split; auto. now left.
    + rewrite (IH _ H). split.
      * intros (g' & f & mt & Hin & Hrest). exists g', f, mt.
        split; [now right|exact Hrest].
      * intros (g' & f & mt & [<-|Hin] & Hf & Hmt & Hm & Hs);
          [|exists g', f, mt; auto].
        assert (mt = matcher) by congruence. subst mt.
        assert (C : checkFiles matcher files sts = true)
          by (apply checkFiles_iff; eauto).
        congruence.
Qed.

(** It returns when the filter converts and every glob compiles. *)
Lemma checkGlobs_returns m files globs sts :
  forallb converts sts = true ->
  (forall g, In g globs -> compiles m g) ->
  exists b, checkGlobs m files globs sts = Ok b.
Proof.
  intros Hc. induction globs as [|g globs IH]; intros Hall; [simpl; eauto|].
  rewrite checkGlobs_cons, Hc.
  destruct (Hall g (or_introl eq_refl)) as [matcher ->].
  destruct (checkFiles matcher files sts); [eauto|].
  apply IH. intros g' Hg'. apply Hall. now right.
Qed.

(** What it throws comes from the debug line or from the glob library. *)
Lemma checkGlobs_throws m files globs sts e :
  checkGlobs m files globs sts = Throw e ->
  (e = CannotConvert /\ forallb converts sts = false)
  \/ exists g, In g globs /\ m g = Throw e.
Proof.
  induction globs as [|g globs IH]; intros H; [discriminate|].
  rewrite checkGlobs_cons in H.
  destruct (forallb converts sts); [|inversion H; auto].
  destruct (m g) as [matcher|e'] eqn:Hg.
  - destruct (checkFiles matcher files sts); [discriminate|].
    destruct (IH H) as [[-> [=]]|(g' & Hin & Hg')].
    right. exists g'. split; [now right|assumption].
  - inversion H; subst. right. exists g. split; [now left|assumption].
Qed.

(** The claim fails where evaluating the rule throws: on a filter entry
    without a string conversion (line 149), and on a glob the library
    refuses (line 150), although a later glob matches a file. *)
Lemma checkGlobs_counterexample :
  rule_matches literal_match [{| filename := "b"; status := "added" |}]
    ["b"] [JStr "added"; JObj [("toString", JNum 1)]]
  /\ checkGlobs literal_match [{| filename := "b"; status := "added" |}]
       ["b"] [JStr "added"; JObj [("toString", JNum 1)]]
     = Throw CannotConvert
  /\ rule_matches limited_match [{| filename := "b"; status := "added" |}]
       [long_glob; "b"] ALL_STATUS
  /\ checkGlobs limited_match [{| filename := "b"; status := "added" |}]
       [long_glob; "b"] ALL_STATUS
     = Throw (External "pattern is too long").
Proof.
  split; [|split; [reflexivity|split; [|vm_compute; reflexivity]]].
  - exists "b", {| filename := "b"; status := "added" |}, (String.eqb "b").
    repeat split; simpl; auto.
  - exists "b", {| filename := "b"; status := "added" |}, (String.eqb "b").
    repeat split; simpl; auto.
Qed.

Lemma checkGlobs_app_globs m files g1 g2 sts :
  checkGlobs m files (g1 ++ g2) sts
  = match checkGlobs m files g1 sts with
    | Ok true => Ok true
    | Ok false => checkGlobs m files g2 sts
    | Throw e => Throw e
    end.
Proof.
  induction g1 as [|g g1 IH]; [reflexivity|].
  cbn [app]. rewrite !checkGlobs_cons.
  destruct (forallb converts sts); [|reflexivity].
  destruct (m g) as [matcher|]; [|reflexivity].
  destruct (checkFiles matcher files sts); [reflexivity|exact IH].
Qed.

(** Over globs that all compile, with a filter that converts, the
    answer is whether the rule matches. *)
Lemma checkGlobs_decides m files globs sts :
  forallb converts sts = true ->
  (forall g, In g globs -> compiles m g) ->
  (rule_matches m files globs sts ->
   checkGlobs m files globs sts = Ok true)
  /\ (~ rule_matches m files globs sts ->
      checkGlobs m files globs sts = Ok false).
Proof.
  intros Hc Hall.
  destruct (checkGlobs_returns m files globs sts Hc Hall) as [b Hb].
  pose proof (checkGlobs_sound _ _ _ _ _ Hb) as Hs. rewrite Hb.
  split; intros H; f_equal.
  - now apply Hs.
  - destruct b; [exfalso; apply H; now apply Hs|reflexivity].
Qed.

(** C1, amended. Whenever [checkGlobs] returns, it answers [true]
    exactly when some glob of the rule and some changed file go
    together: the glob compiles, its matcher accepts the file's path,
    and the file's status is in the rule's status filter.  It does not
    always return.  With at least one glob and a filter that has no
    string conversion, the debug line throws.  Otherwise the globs are
    taken in order: it answers [true] as soon as the globs so far
    compile and one of them matches, whatever follows; it throws the
    error of the glob library at the first glob that does not compile,
    when no glob before it matches; it answers when all globs compile. *)
Theorem checkGlobs_exists_iff (Minimatch : string -> result (string -> bool))
  (changedFiles : list File) (globs : list string) (statusFilter : list value) :
  (forall answer,
      checkGlobs Minimatch changedFiles globs statusFilter = Ok answer ->
      (answer = true
       <-> exists glob f matcher,
             In glob globs /\ In f changedFiles
             /\ Minimatch glob = Ok matcher
             /\ matcher (filename f) = true
             /\ In (JStr (status f)) statusFilter))
  /\ (globs <> [] -> forallb converts statusFilter = false ->
      checkGlobs Minimatch changedFiles globs statusFilter
      = Throw CannotConvert)
  /\ (forall first rest,
         globs = first ++ rest ->
         forallb converts statusFilter = true ->
         (forall glob, In glob first ->
                       exists matcher, Minimatch glob = Ok matcher) ->
         rule_matches Minimatch changedFiles first statusFilter ->
         checkGlobs Minimatch changedFiles globs statusFilter = Ok true)
  /\ (forall first glob rest error,
         globs = first ++ glob :: rest ->
         forallb converts statusFilter = true ->
         (forall g, In g first -> exists matcher, Minimatch g = Ok matcher) ->
         ~ rule_matches Minimatch changedFiles first statusFilter ->
         Minimatch glob = Throw error ->
         checkGlobs Minimatch changedFiles globs statusFilter = Throw error)
  /\ (globs = [] \/ forallb converts statusFilter = true ->
      (forall glob, In glob globs ->
                    exists matcher, Minimatch glob = Ok matcher) ->
      exists answer,
        checkGlobs Minimatch changedFiles globs statusFilter = Ok answer).
Proof.
  split; [|split; [|split; [|split]]].
  - intros answer H. exact (checkGlobs_sound _ _ _ _ _ H).
  - intros Hne Hc. destruct globs as [|g globs]; [contradiction|].
    now rewrite checkGlobs_cons, Hc.
  - intros first rest -> Hc Hall Hm. rewrite checkGlobs_app_globs.
    now rewrite (proj1 (checkGlobs_decides _ _ _ _ Hc Hall) Hm).
  - intros first glob rest error -> Hc Hall Hno Hg.
    rewrite checkGlobs_app_globs.
    rewrite (proj2 (checkGlobs_decides _ _ _ _ Hc Hall) Hno).
    now rewrite checkGlobs_cons, Hc, Hg.
  - intros [->|Hc] Hall; [simpl; eauto|].
    now apply checkGlobs_returns.
Qed.

Lemma checkGlobs_exists_iff_witness :
  checkGlobs limited_match [{| filename := "b"; status := "added" |}]
    (["a"; "b"] ++ [long_glob]) [JStr "added"] = Ok true
  /\ exists answer,
       checkGlobs literal_match [{| filename := "b"; status := "added" |}]
         ["a"; "b"] [JStr "added"] = Ok answer.
Proof.
  split.
  - refine (proj1 (proj2 (proj2 (checkGlobs_exists_iff limited_match
                                   [{| filename := "b"; status := "added" |}]
                                   (["a"; "b"] ++ [long_glob])
                                   [JStr "added"])))
              ["a"; "b"] [long_glob] eq_refl eq_refl _ _).
    + intros glob [<-|[<-|[]]]; eexists; reflexivity.
    + exists "b", {| filename := "b"; status := "added" |}, (String.eqb "b").
      repeat split; simpl; auto.
  - refine (proj2 (proj2 (proj2 (proj2 (checkGlobs_exists_iff literal_match
                                          [{| filename := "b";
                                              status := "added" |}]
                                          ["a"; "b"] [JStr "added"]))))
              (or_intror eq_refl) _).
    intros glob _. exists (String.eqb glob). reflexivity.
Defined.



(** ** Label selection *)

Lemma select_loop_ok m files entries : forall acc labels,
  foldM
    (fun labels entry =>
       let '(label, (globs, sts)) := entry in
       JS.bind (interpolate sts) (fun line34 =>
       JS.bind (checkGlobs m files globs sts) (fun matched =>
       Ok (if (matched : bool) then labels ++ [label] else labels))))
    entries acc = Ok labels ->
  Forall (entry_returns m files) entries
  /\ labels = acc ++ map fst (filter (selected m files) entries).
Proof.
  induction entries as [|[label [globs sts]] entries IH]; intros acc labels H;
    cbn [foldM] in H.
  - inversion H; subst. split; [constructor|simpl; now rewrite app_nil_r].
  - unfold interpolate in H.
    destruct (forallb converts sts) eqn:Hc; cbn [JS.bind] in H;
      [|discriminate].
    destruct (checkGlobs m files globs sts) as [b|] eqn:Hb;
      cbn [JS.bind] in H; [|discriminate].
    destruct (IH _ _ H) as [Hall ->]. split.
    + constructor; [|assumption]. split; [exact Hc|]. simpl. eauto.
    + cbn [filter]. unfold selected at 2. cbn [fst snd]. rewrite Hb.
      destruct b; cbn [map fst]; [|reflexivity].
      now rewrite <- app_assoc.
Qed.

Lemma select_loop_total m files entries :
  Forall (entry_returns m files) entries ->
  forall acc,
  foldM
    (fun labels entry =>
       let '(label, (globs, sts)) := entry in
       JS.bind (interpolate sts) (fun line34 =>
       JS.bind (checkGlobs m files globs sts) (fun matched =>
       Ok (if (matched : bool) then labels ++ [label] else labels))))
    entries acc
  = Ok (acc ++ map fst (filter (selected m files) entries)).
Proof.
  induction entries as [|[label [globs sts]] entries IH]; intros Hall acc;
    cbn [foldM].
  - simpl. now rewrite app_nil_r.
  - inversion Hall as [|? ? [Hc [b Hb]] Hrest]; subst. cbn [fst snd] in *.
    unfold interpolate. rewrite Hc, Hb. cbn [JS.bind].
    rewrite (IH Hrest). cbn [filter]. unfold selected at 2.
    cbn [fst snd]. rewrite Hb.
    destruct b; cbn [map fst]; [|reflexivity].
    now rewrite <- app_assoc.
Qed.

(** The loop completes exactly when each iteration does, and then it
    has kept the labels whose rule evaluates to true, in order. *)
Lemma selectLabels_ok_iff m files rs labels :
  selectLabels m files rs = Ok labels
  <-> Forall (entry_returns m files) (JSMap.entries rs)
      /\ labels = map fst (filter (selected m files) (JSMap.entries rs)).
Proof.
  unfold selectLabels. split.
  - intros H. now apply select_loop_ok in H.
  - intros [Hall ->]. now rewrite (select_loop_total _ _ _ Hall).
Qed.

Lemma evaluable_returns m files entry :
  evaluable m (snd entry) -> entry_returns m files entry.
Proof.
  intros [Hc Hg]. split; [exact Hc|]. now apply checkGlobs_returns.
Qed.

Lemma parser_keys_in_order cfg rs :
  getLabelGlobMapFromObject cfg = Ok rs ->
  NoDup (for_in cfg) -> JSMap.keys rs = for_in cfg.
Proof.
  intros H Hnd.
  now apply (fold_parse_keys cfg (for_in cfg) (incl_refl _) _ _ H).
Qed.

(** *** The order of [for .. in] over a mapping *)

Lemma insert_index_perm {A} n (p : A) sorted :
  Permutation (insert_index n p sorted) ((n, p) :: sorted).
Proof.
  induction sorted as [|[m q] sorted IH]; simpl; [reflexivity|].
  destruct (N.leb n m); [reflexivity|].
  rewrite IH. apply perm_swap.
Qed.

Lemma index_props_perm {A} (props : list (string * A)) :
  Permutation (map snd (index_props props))
              (filter (fun p => negb (is_named (fst p))) props).
Proof.
  induction props as [|p props IH]; simpl; [constructor|].
  unfold is_named at 1.
  destruct (array_index (fst p)); simpl; [|exact IH].
  rewrite insert_index_perm. simpl. now constructor.
Qed.

Lemma insert_index_sorted {A} n (p : A) sorted :
  StronglySorted (fun x y => (fst x <= fst y)%N) sorted ->
  StronglySorted (fun x y => (fst x <= fst y)%N) (insert_index n p sorted).
Proof.
  induction sorted as [|[m q] sorted IH]; intros Hs; simpl.
  - repeat constructor.
  - inversion Hs as [|? ? Hs' Hall]; subst.
    destruct (N.leb_spec n m).
    + constructor; [assumption|]. constructor; [simpl; assumption|].
      eapply Forall_impl; [|exact Hall]. simpl. intros; lia.
    + constructor; [now apply IH|].
      apply Forall_forall. intros [m' q'] Hin.
      apply insert_index_in in Hin. destruct Hin as [[= -> ->]|Hin].
      * simpl. lia.
      * rewrite Forall_forall in Hall. now apply (Hall (m', q')).
Qed.

Lemma index_props_sorted {A} (props : list (string * A)) :
  StronglySorted (fun x y => (fst x <= fst y)%N) (index_props props).
Proof.
  induction props as [|p props IH]; simpl; [constructor|].
  destruct (array_index (fst p)); [now apply insert_index_sorted|exact IH].
Qed.

Lemma index_keys_sorted {A} (l : list (N * (string * A))) :
  StronglySorted (fun x y => (fst x <= fst y)%N) l ->
  Forall (fun x => array_index (fst (snd x)) = Some (fst x)) l ->
  StronglySorted index_le (map (fun x => fst (snd x)) l).
Proof.
  induction l as [|x l IH]; intros Hs Hidx; simpl; [constructor|].
  inversion Hs as [|? ? Hs' Hall]; subst.
  inversion Hidx as [|? ? Hx Hidx']; subst.
  constructor; [now apply IH|].
  apply Forall_forall. intros k Hk. apply in_map_iff in Hk.
  destruct Hk as (y & <- & Hy). unfold index_le.
  rewrite Forall_forall in Hall, Hidx'.
  rewrite Hx, (Hidx' y Hy). now apply Hall.
Qed.

Lemma filter_map_fst {A} (f : string -> bool) (props : list (string * A)) :
  filter f (map fst props) = map fst (filter (fun p => f (fst p)) props).
Proof.
  induction props as [|p props IH]; simpl; [reflexivity|].
  destruct (f (fst p)); simpl; now rewrite IH.
Qed.

(** Array indices first, in ascending order, then the other keys as
    they were inserted. *)
Lemma for_in_mapping_order (props : list (string * value)) :
  exists indices,
    for_in (JObj props) = indices ++ filter is_named (map fst props)
    /\ Permutation indices
         (filter (fun k => negb (is_named k)) (map fst props))
    /\ StronglySorted index_le indices.
Proof.
  exists (map (fun x => fst (snd x)) (index_props props)).
  split; [|split].
  - unfold for_in. cbn [own_props]. unfold enumerate, named_props.
    now rewrite map_app, map_map, filter_map_fst.
  - rewrite filter_map_fst, <- (map_map snd fst).
    apply Permutation_map. apply index_props_perm.
  - apply index_keys_sorted; [apply index_props_sorted|].
    apply Forall_forall. intros [n p] Hin. apply index_props_in in Hin.
    simpl. tauto.
Qed.

(** Labels that are array indices are visited first: the rule set, and
    the selected labels, do not follow the order of the configuration. *)
Lemma selectLabels_order_counterexample :
  getLabelGlobMapFromObject (JObj [("b", JStr "a.md"); ("1", JStr "a.md")])
  = Ok [("1", (["a.md"], ALL_STATUS)); ("b", (["a.md"], ALL_STATUS))]
  /\ selectLabels literal_match
       [{| filename := "a.md"; status := "added" |}]
       [("1", (["a.md"], ALL_STATUS)); ("b", (["a.md"], ALL_STATUS))]
     = Ok ["1"; "b"]
  /\ ["1"; "b"] <> map fst [("b", JStr "a.md"); ("1", JStr "a.md")].
Proof. repeat split. discriminate. Qed.

(** C6, amended. The loop of [run] over the rule set completes exactly
    when, for every rule, the filter has a string conversion (line 34)
    and the evaluation returns; it has then built the list of the labels
    whose rule evaluates to true, and no others, in the order in which
    the rule set holds them.  It completes in particular when every
    filter converts and every glob compiles.  A rule set built by the parser holds the labels in
    the order of the parser's [for .. in] loop over the configuration:
    the labels that are array indices first, in ascending numeric
    order, then the other labels in the configuration's insertion
    order. *)
Theorem selectLabels_in_order (Minimatch : string -> result (string -> bool))
  (changedFiles : list File) :
  (forall ruleSet labels,
      selectLabels Minimatch changedFiles ruleSet = Ok labels
      <-> Forall
            (fun entry =>
               forallb converts (snd (snd entry)) = true
               /\ exists matched,
                    checkGlobs Minimatch changedFiles
                      (fst (snd entry)) (snd (snd entry)) = Ok matched)
            (JSMap.entries ruleSet)
          /\ labels = map fst (filter (selected Minimatch changedFiles)
                                      (JSMap.entries ruleSet)))
  /\ (forall ruleSet,
         Forall (fun entry => evaluable Minimatch (snd entry))
                (JSMap.entries ruleSet) ->
         exists labels,
           selectLabels Minimatch changedFiles ruleSet = Ok labels)
  /\ (forall configObject ruleSet,
         getLabelGlobMapFromObject configObject = Ok ruleSet ->
         NoDup (for_in configObject) ->
         map fst (JSMap.entries ruleSet) = for_in configObject)
  /\ (forall props,
         exists indices,
           for_in (JObj props) = indices ++ filter is_named (map fst props)
           /\ Permutation indices
                (filter (fun k => negb (is_named k)) (map fst props))
           /\ StronglySorted index_le indices)
  /\ (forall props,
         forallb (fun p => is_named (fst p)) props = true ->
         for_in (JObj props) = map fst props).
Proof.
  split; [|split; [|split; [|split]]].
  - intros ruleSet labels. apply selectLabels_ok_iff.
  - intros ruleSet Hall. eexists. apply selectLabels_ok_iff.
    split; [|reflexivity].
    eapply Forall_impl; [|exact Hall]. intros entry.
    apply evaluable_returns.
  - intros configObject ruleSet H Hnd.
    now apply parser_keys_in_order.
  - apply for_in_mapping_order.
  - intros props H. unfold for_in. cbn [own_props].
    now rewrite enumerate_named.
Qed.

Lemma selectLabels_in_order_witness :
  let config := JObj [("docs", JStr "README.md"); ("src", JStr "main.ts");
                      ("all", JArr [JStr "main.ts"; JStr "README.md"])] in
  NoDup (for_in config)
  /\ ["docs"; "src"; "all"] = for_in config
  /\ ["docs"; "all"]
     = map fst
         (filter (selected literal_match
                    [{| filename := "README.md"; status := "modified" |}])
            [("docs", (["README.md"], ALL_STATUS));
             ("src", (["main.ts"], ALL_STATUS));
             ("all", (["main.ts"; "README.md"], ALL_STATUS))]).
Proof.
  intros config.
  assert (Hnd : NoDup (for_in config)).
  { repeat constructor; simpl; intuition discriminate. }
  split; [exact Hnd|]. split.
  - exact (proj1 (proj2 (proj2 (selectLabels_in_order literal_match [])))
             config
             [("docs", (["README.md"], ALL_STATUS));
              ("src", (["main.ts"], ALL_STATUS));
              ("all", (["main.ts"; "README.md"], ALL_STATUS))]
             eq_refl Hnd).
  - exact (proj2 (proj1 (proj1 (selectLabels_in_order literal_match
                                  [{| filename := "README.md";
                                      status := "modified" |}])
                           [("docs", (["README.md"], ALL_STATUS));
                            ("src", (["main.ts"], ALL_STATUS));
                            ("all", (["main.ts"; "README.md"], ALL_STATUS))]
                           ["docs"; "all"]) eq_refl)).
Defined.

Lemma selectLabels_in m files rs labels l :
  selectLabels m files rs = Ok labels ->
  In l labels
  <-> exists globs sts,
        In (l, (globs, sts)) (JSMap.entries rs)
        /\ checkGlobs m files globs sts = Ok true.
Proof.
  intros H. apply selectLabels_ok_iff in H. destruct H as [_ ->].
  rewrite in_map_iff. split.
  - intros ([l' [globs sts]] & <- & Hin). apply filter_In in Hin.
    destruct Hin as [Hin Hsel]. exists globs, sts. split; [assumption|].
    unfold selected in Hsel. cbn [fst snd] in Hsel.
    destruct (checkGlobs m files globs sts) as [[]|]; congruence.
  - intros (globs & sts & Hin & Hc). exists (l, (globs, sts)).
    split; [reflexivity|]. apply filter_In. split; [assumption|].
    unfold selected. cbn [fst snd]. now rewrite Hc.
Qed.

(** A label whose rule does not evaluate to true is not selected. *)
Lemma not_selected m files rs labels l globs sts :
  NoDup (JSMap.keys rs) ->
  JSMap.get rs l = Some (globs, sts) ->
  checkGlobs m files globs sts <> Ok true ->
  selectLabels m files rs = Ok labels ->
  ~ In l labels.
Proof.
  intros Hnd Hget Hc Hsel Hin. apply (selectLabels_in _ _ _ _ l Hsel) in Hin.
  destruct Hin as (g' & s' & Hin & Hc').
  apply (lookup_in_nodup _ _ _ Hnd) in Hin. unfold JSMap.get in Hget.
  congruence.
Qed.

(** ** The parser, label by label *)

(** C4. A label whose value is the bare string [s] gets the rule with
    the glob list [[s]] and the status filter added, modified, removed:
    the iteration for that label stores it, and it is the rule found
    under the label in the rule set the parser returns. *)
Theorem bare_string_rule (configObject : value) (label s : string) :
  label_value configObject label (JStr s) ->
  (forall labelGlobs,
      parseLabel configObject labelGlobs label
      = Ok (JSMap.set labelGlobs label
              ([s], [JStr "added"; JStr "modified"; JStr "removed"])))
  /\ (forall ruleSet,
         getLabelGlobMapFromObject configObject = Ok ruleSet ->
         JSMap.get ruleSet label
         = Some ([s], [JStr "added"; JStr "modified"; JStr "removed"])).
Proof.
  intros [Hin Hv]. split.
  - intros labelGlobs. rewrite (parseLabel_rule _ _ _ Hin), Hv. reflexivity.
  - intros ruleSet H. destruct (parser_rule _ _ _ H Hin) as (r & Hr & Hget).
    rewrite Hv in Hr. simpl in Hr. inversion Hr; subst. exact Hget.
Qed.

Lemma bare_string_rule_witness :
  label_value (JObj [("docs", JStr "*.md")]) "docs" (JStr "*.md")
  /\ getLabelGlobMapFromObject (JObj [("docs", JStr "*.md")])
     = Ok [("docs", (["*.md"], ALL_STATUS))]
  /\ JSMap.get [("docs", (["*.md"], ALL_STATUS))] "docs"
     = Some (["*.md"], [JStr "added"; JStr "modified"; JStr "removed"]).
Proof.
  assert (H : label_value (JObj [("docs", JStr "*.md")]) "docs" (JStr "*.md")).
  { split; [simpl; auto|reflexivity]. }
  split; [exact H|]. split; [reflexivity|].
  apply (proj2 (bare_string_rule _ _ _ H)). reflexivity.
Defined.



(** ** The rule invariant *)

Lemma valid_ALL_STATUS : valid_filter ALL_STATUS.
Proof.
  split; [discriminate|]. unfold ALL_STATUS.
  repeat (apply Forall_cons; [simpl; tauto|]). apply Forall_nil.
Qed.

Lemma spec_globs_nonempty es :
  spec_globs es <> [] <-> exists s, In (JStr s) es.
Proof.
  unfold spec_globs. induction es as [|e es IH]; simpl.
  - split; [congruence|intros (s & [])].
  - destruct e; simpl;
      try (rewrite IH; split;
           [intros (s & H); exists s; now right
           |intros (s & [H|H]); [discriminate|exists s; exact H]]).
    split; [intros _; exists s; now left|discriminate].
Qed.

Lemma last_on_status es :
  spec_status es = match last_on es with
                   | Some f => f
                   | None => ALL_STATUS
                   end.
Proof.
  unfold spec_status, last_on. generalize ALL_STATUS as d.
  induction (on_filters es) as [|f l IH]; intros d; [reflexivity|].
  destruct l as [|g l]; [reflexivity|].
  change (last (f :: g :: l) d) with (last (g :: l) d).
  change (last (map Some (f :: g :: l)) None)
    with (last (map Some (g :: l)) None).
  apply IH.
Qed.

Lemma spec_status_valid es :
  valid_filter (spec_status es)
  <-> (forall f, last_on es = Some f -> valid_filter f).
Proof.
  rewrite last_on_status. destruct (last_on es) as [f|].
  - split; [intros H g [= <-]; exact H|auto].
  - split; [intros _ g; discriminate|intros _; apply valid_ALL_STATUS].
Qed.

(** The claim fails on a sequence without a string element and on an
    [on] value outside the three statuses. *)
Lemma rule_invariant_counterexample :
  getLabelGlobMapFromObject (JObj [("l", JArr [JObj [("on", JStr "x")]])])
  = Ok [("l", ([], [JStr "x"]))]
  /\ ~ rule_invariant ([], [JStr "x"]).
Proof.
  split; [reflexivity|]. intros [H _]. now apply H.
Qed.

(** C2, amended. In a rule set returned by the parser, a rule has at
    least one glob and a non-empty status filter within added, modified,
    removed exactly when its label's value is a bare string, or a
    sequence with at least one string element whose last [on] entry, if
    it has one, holds such a filter. *)
Theorem rule_invariant_iff_guarded (configObject : value)
  (ruleSet : JSMap.t Rule) (label : string) (r : Rule) :
  getLabelGlobMapFromObject configObject = Ok ruleSet ->
  JSMap.get ruleSet label = Some r ->
  (rule_invariant r <-> guarded (get_own configObject label)).
Proof.
  intros H Hget. destruct (parser_rule_inv _ _ _ _ H Hget) as [_ Hr].
  destruct (get_own configObject label) as [| | | |s|es|]; simpl in Hr;
    try discriminate.
  - inversion Hr; subst. simpl. split; [auto|intros _].
    split; [discriminate|apply valid_ALL_STATUS].
  - apply scanArray_ok_iff in Hr. destruct Hr as [_ ->].
    unfold rule_invariant, guarded. simpl.
    now rewrite spec_globs_nonempty, spec_status_valid.
Qed.

Lemma rule_invariant_iff_guarded_witness :
  rule_invariant (["src/**"], [JStr "removed"])
  /\ guarded (JArr [JStr "src/**"; JObj [("on", JStr "removed")]]).
Proof.
  assert (G : guarded (JArr [JStr "src/**"; JObj [("on", JStr "removed")]])).
  { split; [exists "src/**"; simpl; auto|].
    intros f [= <-]. split; [discriminate|].
    apply Forall_cons; [simpl; tauto|apply Forall_nil]. }
  split; [|exact G].
  apply (rule_invariant_iff_guarded
           (JObj [("removed-only",
                   JArr [JStr "src/**"; JObj [("on", JStr "removed")]])])
           [("removed-only", (["src/**"], [JStr "removed"]))]
           "removed-only" _ eq_refl eq_refl).
  exact G.
Defined.

(** ** Malformed configurations *)

Lemma forallb_false_exists {A} (p : A -> bool) xs :
  forallb p xs = false -> exists x, In x xs /\ p x = false.
Proof.
  induction xs as [|x xs IH]; simpl; [discriminate|].
  destruct (p x) eqn:E; simpl.
  - intros H. destruct (IH H) as (y & Hy & Hp). exists y. auto.
  - intros _. exists x. auto.
Qed.

Lemma scan_throw_kind es : forall st err,
  foldM scanElement es st = Throw err ->
  err = UnexpectedElement \/ exists base, err = PropertyOfNullish base "on".
Proof.
  induction es as [|e es IH]; intros [globs sts] err H; cbn [foldM] in H;
    [discriminate|].
  rewrite scanElement_cases in H.
  destruct e; cbn [JS.bind] in H;
    try (inversion H; subst; eauto; fail);
    try (destruct (on_filter _); cbn [JS.bind] in H;
         [eapply IH; eassumption|inversion H; subst; auto]);
    try (eapply IH; eassumption).
Qed.

Lemma ruleOfValue_throw l v err :
  ruleOfValue l v = Throw err ->
  (is_string v = false /\ is_array v = false
   /\ err = UnexpectedLabelType l)
  \/ (exists es e, v = JArr es /\ In e es /\ accepted_element e = false
                   /\ err <> UnexpectedLabelType l).
Proof.
  destruct v; simpl; try (intros [= <-]; left; auto; fail).
  intros H. right. rewrite scanArray_elements in H.
  destruct (forallb accepted_element elems) eqn:E.
  - rewrite (scan_accepted _ _ _ E) in H. discriminate.
  - destruct (forallb_false_exists _ _ E) as (e & Hin & He).
    exists elems, e. repeat split; auto.
    destruct (scan_throw_kind _ _ _ H) as [-> | [base ->]]; discriminate.
Qed.

Lemma parser_throws_iff cfg :
  throws cfg
  <-> (exists l, bad_label cfg l) \/ bad_element accepted_element cfg.
Proof.
  unfold throws. split.
  - intros (err & H).
    destruct (fold_parse_throw cfg _ (incl_refl _) _ _ H) as (l & Hl & Hr).
    destruct (ruleOfValue_throw _ _ _ Hr)
      as [(Hs & Ha & _)|(es & e & Hv & He & Hacc & _)].
    + left. exists l, (get_own cfg l). repeat split; auto.
    + right. exists l, es, e. repeat split; auto.
  - intros Hbad.
    destruct (getLabelGlobMapFromObject cfg) as [rs|err] eqn:H; [|eauto].
    exfalso. destruct Hbad as [(l & v & [Hl Hv] & Hs & Ha)
                              |(l & es & e & [Hl Hv] & He & Hacc)];
      destruct (parser_rule _ _ _ H Hl) as (r & Hr & _);
      rewrite Hv in Hr.
    + destruct v; simpl in *; discriminate.
    + simpl in Hr. apply scanArray_ok_iff in Hr. destruct Hr as [Hall _].
      rewrite forallb_forall in Hall. rewrite (Hall _ He) in Hacc.
      discriminate.
Qed.

(** The parser lets an [on] sequence of non-strings through. *)
Lemma malformed_config_counterexample :
  bad_element (fun e => is_string e || is_on_entry_of_strings e)
    (JObj [("l", JArr [JObj [("on", JArr [JNum 1])]])])
  /\ getLabelGlobMapFromObject
       (JObj [("l", JArr [JObj [("on", JArr [JNum 1])]])])
     = Ok [("l", ([], [JNum 1]))].
Proof.
  split; [|reflexivity].
  exists "l", [JObj [("on", JArr [JNum 1])]], (JObj [("on", JArr [JNum 1])]).
  split; [split; [simpl; auto|reflexivity]|].
  split; [simpl; auto|reflexivity].
Qed.

(** C3, amended. The parser throws exactly when some label's value is
    neither a string nor a sequence, or some element of a sequence is
    neither a string nor an object whose [on] key holds a string or a
    sequence (of whatever elements); otherwise it returns a rule set.
    An error raised for a label's value names a label with such a value,
    and that is the error raised when no sequence has a bad element. *)
Theorem malformed_config_iff (configObject : value) :
  (throws configObject
   <-> (exists label, bad_label configObject label)
       \/ bad_element accepted_element configObject)
  /\ (~ throws configObject ->
      exists ruleSet, getLabelGlobMapFromObject configObject = Ok ruleSet)
  /\ (forall label,
         getLabelGlobMapFromObject configObject
         = Throw (UnexpectedLabelType label) ->
         bad_label configObject label
         /\ message (UnexpectedLabelType label)
            = ("found unexpected type for label " ++ label
               ++ " (should be string or array of globs)")%string)
  /\ ((exists label, bad_label configObject label) ->
      ~ bad_element accepted_element configObject ->
      exists label,
        bad_label configObject label
        /\ getLabelGlobMapFromObject configObject
           = Throw (UnexpectedLabelType label)).
Proof.
  split; [apply parser_throws_iff|]. split.
  { intros H. destruct (getLabelGlobMapFromObject configObject) eqn:E;
      [eauto|]. exfalso. apply H. exists e. exact E. }
  split.
  - intros label H.
    destruct (fold_parse_throw _ _ (incl_refl _) _ _ H) as (l & Hl & Hr).
    destruct (ruleOfValue_throw _ _ _ Hr)
      as [(Hs & Ha & [= <-])|(es & e & _ & _ & _ & Hne)].
    + split; [|reflexivity].
      exists (get_own configObject label). repeat split; auto.
    + destruct (get_own configObject l); simpl in Hr;
        try (inversion Hr; subst; contradiction).
      rewrite scanArray_elements in Hr.
      destruct (scan_throw_kind _ _ _ Hr) as [|[base ?]]; discriminate.
  - intros Hbad Hno.
    assert (Ht : throws configObject) by (apply parser_throws_iff; auto).
    destruct Ht as (err & H).
    destruct (fold_parse_throw _ _ (incl_refl _) _ _ H) as (l & Hl & Hr).
    destruct (ruleOfValue_throw _ _ _ Hr)
      as [(Hs & Ha & ->)|(es & e & Hv & He & Hacc & _)].
    + exists l. split; [|exact H].
      exists (get_own configObject l). repeat split; auto.
    + exfalso. apply Hno. exists l, es, e. repeat split; auto.
Qed.

Lemma malformed_config_iff_witness :
  bad_label (JObj [("bad", JNum 42)]) "bad"
  /\ throws (JObj [("bad", JNum 42)]).
Proof.
  assert (B : bad_label (JObj [("bad", JNum 42)]) "bad").
  { exists (JNum 42). repeat split. simpl. auto. }
  split; [exact B|].
  apply (proj1 (malformed_config_iff (JObj [("bad", JNum 42)]))).
  left. exists "bad". exact B.
Defined.

(** ** Sequences without globs, and unchecked [on] values *)

Lemma on_entries_accepted es :
  forallb is_on_entry es = true ->
  forallb accepted_element es = true /\ spec_globs es = [].
Proof.
  unfold spec_globs.
  induction es as [|e es IH]; simpl; [auto|].
  intros H. apply andb_true_iff in H. destruct H as [He Hes].
  destruct (IH Hes) as [Hacc Hg]. unfold accepted_element at 1.
  rewrite He, orb_true_r, Hacc, Hg.
  split; [reflexivity|]. destruct e; try reflexivity. discriminate.
Qed.

Lemma label_ok_rule cfg l :
  label_ok cfg l = true -> exists r, ruleOfValue l (get_own cfg l) = Ok r.
Proof.
  unfold label_ok. destruct (get_own cfg l); try discriminate; simpl.
  - eauto.
  - intros H. exists (spec_globs elems, spec_status elems).
    apply scanArray_ok_iff. auto.
Qed.

Lemma fold_parse_total cfg ks : incl ks (for_in cfg) ->
  (forall l, In l ks -> exists r, ruleOfValue l (get_own cfg l) = Ok r) ->
  forall m0, exists rs, foldM (parseLabel cfg) ks m0 = Ok rs.
Proof.
  induction ks as [|k ks IH]; intros Hincl Hall m0; cbn [foldM]; [eauto|].
  assert (Hk : In k (for_in cfg)) by (apply Hincl; now left).
  rewrite (parseLabel_rule _ _ _ Hk).
  destruct (Hall k (or_introl eq_refl)) as [r ->]. cbn [JS.bind].
  apply IH; [intros x Hx; apply Hincl; now right|].
  intros l Hl. apply Hall. now right.
Qed.

(** A label whose value gives the rule [r]: the iteration stores [r],
    the parser returns when the other labels are fine, and [r] is what
    the returned rule set holds under the label. *)
Lemma label_rule_stored cfg l r :
  In l (for_in cfg) ->
  ruleOfValue l (get_own cfg l) = Ok r ->
  (forall m, parseLabel cfg m l = Ok (JSMap.set m l r))
  /\ ((forall k, In k (for_in cfg) -> k <> l -> label_ok cfg k = true) ->
      exists rs, getLabelGlobMapFromObject cfg = Ok rs)
  /\ (forall rs, getLabelGlobMapFromObject cfg = Ok rs ->
                 JSMap.get rs l = Some r).
Proof.
  intros Hin Hr. split; [|split].
  - intros m. now rewrite (parseLabel_rule _ _ _ Hin), Hr.
  - intros Hothers. apply fold_parse_total; [apply incl_refl|].
    intros k Hk. destruct (string_dec k l) as [->|Hne]; [eauto|].
    apply label_ok_rule. now apply Hothers.
  - intros rs H. destruct (parser_rule _ _ _ H Hin) as (r' & Hr' & Hget).
    congruence.
Qed.

(** C9. A sequence made of [on] entries only (objects whose [on] key
    holds a string or a sequence) is accepted and gives a rule with no
    glob: the iteration for the label stores it, the parser returns
    when the other labels are fine, and the rule is found under the
    label.  Such a rule evaluates to false on every list of changed
    files, and its label is never among the selected labels. *)
Theorem only_on_entries_never_selected (es : list value) :
  forallb is_on_entry es = true ->
  scanArray (JArr es) = Ok ([], spec_status es)
  /\ (forall Minimatch changedFiles,
         checkGlobs Minimatch changedFiles [] (spec_status es) = Ok false)
  /\ (forall configObject label,
         label_value configObject label (JArr es) ->
         (forall labelGlobs,
             parseLabel configObject labelGlobs label
             = Ok (JSMap.set labelGlobs label ([], spec_status es)))
         /\ ((forall k, In k (for_in configObject) -> k <> label ->
                        label_ok configObject k = true) ->
             exists ruleSet,
               getLabelGlobMapFromObject configObject = Ok ruleSet)
         /\ (forall ruleSet,
                getLabelGlobMapFromObject configObject = Ok ruleSet ->
                JSMap.get ruleSet label = Some ([], spec_status es)
                /\ forall Minimatch changedFiles labels,
                     selectLabels Minimatch changedFiles ruleSet = Ok labels ->
                     ~ In label labels)).
Proof.
  intros H. destruct (on_entries_accepted _ H) as [Hacc Hg].
  assert (Hscan : scanArray (JArr es) = Ok ([], spec_status es)).
  { apply scanArray_ok_iff. split; [assumption|]. now rewrite Hg. }
  split; [exact Hscan|]. split; [reflexivity|].
  intros configObject label [Hin Hv].
  assert (Hr : ruleOfValue label (get_own configObject label)
               = Ok ([], spec_status es)) by (rewrite Hv; exact Hscan).
  destruct (label_rule_stored _ _ _ Hin Hr) as (Hstep & Htotal & Hstored).
  split; [exact Hstep|]. split; [exact Htotal|].
  intros ruleSet Hp. split; [now apply Hstored|].
  intros m files labels Hsel.
  apply (not_selected m files ruleSet labels label [] (spec_status es));
    [eapply parser_keys_nodup; eassumption|now apply Hstored
    |discriminate|assumption].
Qed.

Lemma only_on_entries_never_selected_witness :
  let es := [JObj [("on", JArr [JStr "added"; JStr "modified"])]] in
  let config := JObj [("docs", JStr "*.md"); ("feature", JArr es)] in
  forallb is_on_entry es = true
  /\ label_value config "feature" (JArr es)
  /\ exists ruleSet,
       getLabelGlobMapFromObject config = Ok ruleSet
       /\ JSMap.get ruleSet "feature"
          = Some ([], [JStr "added"; JStr "modified"]).
Proof.
  intros es config.
  assert (L : label_value config "feature" (JArr es)).
  { split; [simpl; auto|reflexivity]. }
  split; [reflexivity|]. split; [exact L|].
  destruct (proj2 (proj2 (only_on_entries_never_selected es eq_refl))
              config "feature" L) as (_ & Htotal & Hstored).
  destruct Htotal as [ruleSet Hp].
  { intros k [<-|[<-|[]]] Hne; [reflexivity|contradiction]. }
  exists ruleSet. split; [exact Hp|]. exact (proj1 (Hstored ruleSet Hp)).
Defined.








(** ** The run *)

Example run_scenario1 :
  run literal_match
      (sample_world true (Some 7%Z)
         [{| filename := "README.md"; status := "modified" |}]
         (JObj [("docs", JStr "README.md"); ("src", JStr "main.ts")]))
  = [PullsListFiles "octo" "demo" 7;
     ReposGetContents "octo" "demo" ".github/labeler.yml" "0a1b2c";
     IssuesAddLabels "octo" "demo" 7 ["docs"]].
Proof. reflexivity. Qed.

Example run_scenario5 :
  run literal_match
      (sample_world true (Some 7%Z) [] (JObj [("bad", JNum 42)]))
  = [PullsListFiles "octo" "demo" 7;
     ReposGetContents "octo" "demo" ".github/labeler.yml" "0a1b2c";
     CoreError (UnexpectedLabelType "bad");
     CoreSetFailed
       "found unexpected type for label bad (should be string or array of globs)"].
Proof. reflexivity. Qed.

(** A run is the trace of [selection], then what lines 40-46 add. *)
Lemma run_split m w :
  run m w =
  trace_of (selection m w) ++
  match outcome_of (selection m w) with
  | Throw error => [CoreError error; CoreSetFailed (message error)]
  | Ok None => []
  | Ok (Some (n, labels)) =>
      match labels with
      | [] => []
      | _ :: _ =>
          IssuesAddLabels (repo_owner (context w)) (repo_repo (context w))
            n labels
          :: catch_tail (issues_addLabels w (repo_owner (context w))
                           (repo_repo (context w)) n labels)
      end
  end.
Proof.
  unfold run, tryBlock, trace_of, outcome_of.
  destruct (selection m w) as [t [[[n labels]|]|error]]; cbn.
  - destruct labels as [|l labels]; cbn.
    + now rewrite !app_nil_r.
    + unfold addLabels, call.
      destruct (issues_addLabels w _ _ n (l :: labels)); cbn;
        [reflexivity|].
      now rewrite <- app_assoc.
  - now rewrite !app_nil_r.
  - reflexivity.
Qed.

Lemma trace_bind {A B} (m : Act A) (k : A -> Act B) ev :
  In ev (trace_of (act_bind m k)) ->
  In ev (trace_of m)
  \/ exists a, outcome_of m = Ok a /\ In ev (trace_of (k a)).
Proof.
  unfold trace_of, outcome_of, act_bind.
  destruct m as [t1 [a|e]]; cbn; [|auto].
  destruct (k a) as [t2 r] eqn:E; cbn. intros H.
  apply in_app_or in H. destruct H as [H|H]; [auto|].
  right. exists a. rewrite E. auto.
Qed.

Lemma outcome_bind {A B} (m : Act A) (k : A -> Act B) b :
  outcome_of (act_bind m k) = Ok b
  <-> exists a, outcome_of m = Ok a /\ outcome_of (k a) = Ok b.
Proof.
  unfold outcome_of, act_bind.
  destruct m as [t1 [a|e]]; cbn.
  - destruct (k a) as [t2 r] eqn:E; cbn. split.
    + intros ->. exists a. rewrite E. auto.
    + intros (a' & [= <-] & H). now rewrite E in H.
  - split; [discriminate|intros (a & [=] & _)].
Qed.

Lemma getLabelGlobs_trace w path ev :
  In ev (trace_of (getLabelGlobs w path)) ->
  ev = ReposGetContents (repo_owner (context w)) (repo_repo (context w))
         path (sha (context w)).
Proof.
  unfold getLabelGlobs, fetchContent. intros H.
  apply trace_bind in H. destruct H as [H|(content & _ & H)].
  - apply trace_bind in H. destruct H as [[<-|[]]|(resp & _ & [])].
    reflexivity.
  - apply trace_bind in H. destruct H as [[]|(cfg & _ & [])].
Qed.

(** Before line 40 nothing is asked of the client but the changed files
    and the configuration, and no failure is signalled. *)
Lemma selection_trace m w ev :
  In ev (trace_of (selection m w)) ->
  is_addLabels ev = false /\ is_failure ev = false
  /\ (forall o r n name, ev <> IssuesRemoveLabel o r n name).
Proof.
  unfold selection. intros H.
  apply trace_bind in H. destruct H as [[]|(token & _ & H)].
  apply trace_bind in H. destruct H as [[]|(path & _ & H)].
  destruct (falsy (getPrNumber w)).
  { apply trace_bind in H. destruct H as [[<-|[]]|(u & _ & [])].
    repeat split; discriminate. }
  destruct (getPrNumber w) as [n|]; [|destruct H].
  apply trace_bind in H. destruct H as [[<-|[]]|(files & _ & H)].
  { repeat split; discriminate. }
  apply trace_bind in H. destruct H as [H|(rs & _ & H)].
  { apply getLabelGlobs_trace in H. subst ev. repeat split; discriminate. }
  apply trace_bind in H. destruct H as [[]|(labels & _ & [])].
Qed.

Lemma outcome_lift {A} (r : result A) b :
  outcome_of (lift r) = Ok b <-> r = Ok b.
Proof. reflexivity. Qed.

Lemma outcome_call {A} ev (r : result A) b :
  outcome_of (call ev r) = Ok b <-> r = Ok b.
Proof. reflexivity. Qed.

Lemma getLabelGlobs_outcome w path rs :
  outcome_of (getLabelGlobs w path) = Ok rs
  <-> exists response text configObject,
        repos_getContents w (repo_owner (context w)) (repo_repo (context w))
          path (sha (context w)) = Ok response
        /\ Buffer_toString w (content response) (encoding response) = Ok text
        /\ yaml_safeLoad w text = Ok configObject
        /\ getLabelGlobMapFromObject configObject = Ok rs.
Proof.
  unfold getLabelGlobs, fetchContent.
  rewrite outcome_bind. split.
  - intros (text & Ht & H).
    apply outcome_bind in Ht. destruct Ht as (response & Hresp & Ht).
    apply outcome_bind in H. destruct H as (cfg & Hcfg & H).
    apply outcome_call in Hresp.
    apply outcome_lift in Ht. apply outcome_lift in Hcfg.
    apply outcome_lift in H.
    exists response, text, cfg. auto.
  - intros (response & text & cfg & Hresp & Ht & Hcfg & H).
    exists text. split.
    + apply outcome_bind. exists response.
      split; [now apply outcome_call|now apply outcome_lift].
    + apply outcome_bind. exists cfg.
      split; now apply outcome_lift.
Qed.

Lemma selection_outcome m w n labels :
  outcome_of (selection m w) = Ok (Some (n, labels)) <-> selects m w n labels.
Proof.
  unfold selection, selects, getPrNumber. rewrite outcome_bind. split.
  - intros (token & Htoken & H). apply outcome_lift in Htoken.
    apply outcome_bind in H. destruct H as (path & Hpath & H).
    apply outcome_lift in Hpath.
    destruct (payload_pull_request (context w)) as [n'|];
      [|cbn in H; discriminate].
    unfold falsy in H.
    destruct (Z.eqb_spec n' 0) as [E0|Hn]; [cbn in H; discriminate|].
    cbv beta iota in H.
    apply outcome_bind in H. destruct H as (files & Hfiles & H).
    apply outcome_call in Hfiles.
    apply outcome_bind in H. destruct H as (rs & Hrs & H).
    apply outcome_bind in H. destruct H as (labels' & Hlabels & H).
    apply outcome_lift in Hlabels.
    apply (f_equal (fun r => match r with
                             | Ok (Some p) => p
                             | _ => (n, labels)
                             end)) in H.
    cbn in H. injection H as -> ->.
    apply getLabelGlobs_outcome in Hrs.
    destruct Hrs as (response & text & cfg & Hresp & Ht & Hcfg & Hrs).
    exists token, path, files, response, text, cfg, rs. repeat split; auto.
  - intros (token & path & files & response & text & cfg & rs & Htoken
            & Hpath & Hpr & Hn & Hfiles & Hresp & Ht & Hcfg & Hrs & Hsel).
    exists token. split; [now apply outcome_lift|].
    apply outcome_bind. exists path. split; [now apply outcome_lift|].
    rewrite Hpr. unfold falsy.
    destruct (Z.eqb_spec n 0) as [E0|_]; [contradiction|].
    cbv beta iota.
    apply outcome_bind. exists files.
    split; [now apply outcome_call|].
    apply outcome_bind. exists rs. split.
    { apply getLabelGlobs_outcome. exists response, text, cfg. auto. }
    apply outcome_bind. exists labels.
    split; [now apply outcome_lift|reflexivity].
Qed.

Lemma catch_tail_events r ev :
  In ev (catch_tail r) -> is_addLabels ev = false /\ is_client_call ev = false.
Proof.
  destruct r; cbn; [intros []|].
  intros [<-|[<-|[]]]; auto.
Qed.

Lemma selection_no_addLabels m w :
  filter is_addLabels (trace_of (selection m w)) = [].
Proof.
  destruct (filter is_addLabels (trace_of (selection m w))) as [|ev l] eqn:E;
    [reflexivity|].
  assert (H : In ev (filter is_addLabels (trace_of (selection m w))))
    by (rewrite E; now left).
  apply filter_In in H. destruct H as [H Hadd].
  apply selection_trace in H. destruct H as [H _]. congruence.
Qed.

Lemma catch_tail_no_addLabels r : filter is_addLabels (catch_tail r) = [].
Proof. destruct r; reflexivity. Qed.

(** C7. A run calls [issues.addLabels] exactly when it reaches line 40
    with a non-empty label list, and then with the pull request of the
    event and that very list; it makes the call at most once, and it
    never asks the client to remove a label. *)
Theorem addLabels_iff_selected (Minimatch : string -> result (string -> bool))
  (w : World) :
  (forall owner repo n labels,
      In (IssuesAddLabels owner repo n labels) (run Minimatch w)
      <-> selects Minimatch w n labels /\ labels <> []
          /\ owner = repo_owner (context w) /\ repo = repo_repo (context w))
  /\ List.length (filter is_addLabels (run Minimatch w)) <= 1
  /\ (forall owner repo n name,
         ~ In (IssuesRemoveLabel owner repo n name) (run Minimatch w)).
Proof.
  rewrite run_split. split; [|split].
  - intros owner repo n labels. rewrite <- selection_outcome. split.
    + intros H. apply in_app_or in H. destruct H as [H|H].
      { apply selection_trace in H. destruct H as [H _]. discriminate. }
      destruct (outcome_of (selection Minimatch w))
        as [[[n' labels']|]|error]; cbn in H.
      * destruct labels' as [|l labels']; [destruct H|].
        destruct H as [H|H].
        -- inversion H; subst. repeat split. discriminate.
        -- apply catch_tail_events in H. destruct H as [H _]. discriminate.
      * destruct H.
      * destruct H as [H|[H|[]]]; discriminate.
    + intros (Hsel & Hne & -> & ->). apply in_or_app. right.
      rewrite Hsel. destruct labels; [contradiction|]. now left.
  - rewrite filter_app, selection_no_addLabels. cbn [app].
    destruct (outcome_of (selection Minimatch w))
      as [[[n labels]|]|error]; cbn; try lia.
    destruct labels; cbn; [lia|].
    rewrite catch_tail_no_addLabels. cbn. lia.
  - intros owner repo n name H. apply in_app_or in H. destruct H as [H|H].
    { apply selection_trace in H. destruct H as (_ & _ & H).
      now apply (H owner repo n name). }
    destruct (outcome_of (selection Minimatch w))
      as [[[n' labels']|]|error]; cbn in H.
    + destruct labels'; [destruct H|]. destruct H as [H|H]; [discriminate|].
      destruct (issues_addLabels w _ _ n' (s :: labels')); cbn in H;
        [destruct H|destruct H as [H|[H|[]]]; discriminate].
    + destruct H.
    + destruct H as [H|[H|[]]]; discriminate.
Qed.

Lemma addLabels_iff_selected_witness :
  let w := sample_world true (Some 7%Z)
             [{| filename := "README.md"; status := "modified" |}]
             (JObj [("docs", JStr "README.md"); ("src", JStr "main.ts")]) in
  selects literal_match w 7 ["docs"]
  /\ In (IssuesAddLabels "octo" "demo" 7 ["docs"]) (run literal_match w).
Proof.
  intros w.
  assert (S : selects literal_match w 7 ["docs"]).
  { exists "secret", ".github/labeler.yml",
      [{| filename := "README.md"; status := "modified" |}],
      {| content := "ZG9jczogJyoubWQn"; encoding := "base64" |},
      "ZG9jczogJyoubWQn",
      (JObj [("docs", JStr "README.md"); ("src", JStr "main.ts")]),
      [("docs", (["README.md"], ALL_STATUS));
       ("src", (["main.ts"], ALL_STATUS))].
    repeat split; try reflexivity. discriminate. }
  split; [exact S|].
  apply (proj1 (addLabels_iff_selected literal_match w)).
  repeat split; [exact S|discriminate].
Defined.

(** With a required input missing, [core.getInput] throws before the
    event is looked at, and the run fails although there is no pull
    request. *)
Lemma no_pull_request_counterexample :
  payload_pull_request (context (sample_world false None [] JNull)) = None
  /\ run literal_match (sample_world false None [] JNull)
     = [CoreError (External "Input required and not supplied: repo-token");
        CoreSetFailed "Input required and not supplied: repo-token"]
  /\ existsb is_failure (run literal_match (sample_world false None [] JNull))
     = true.
Proof. repeat split. Qed.

(** C8, amended. When the event carries no pull request, a run calls
    nothing on the client; and when moreover both required inputs are
    supplied, it logs that there is no pull-request number and returns
    without signalling failure. *)
Theorem no_pull_request_exits_cleanly
  (Minimatch : string -> result (string -> bool)) (w : World) :
  payload_pull_request (context w) = None ->
  existsb is_client_call (run Minimatch w) = false
  /\ (forall token path,
         core_getInput w "repo-token" = Ok token ->
         core_getInput w "configuration-path" = Ok path ->
         run Minimatch w
         = [ConsoleLog
              "Could not get pull request number from context, exiting"]
         /\ existsb is_failure (run Minimatch w) = false).
Proof.
  intros Hpr. unfold run, tryBlock, selection, getPrNumber.
  rewrite Hpr. unfold lift, emit, act_ret, act_bind, falsy.
  destruct (core_getInput w "repo-token") as [token|e1].
  - destruct (core_getInput w "configuration-path") as [path|e2].
    + split; [reflexivity|]. intros _ _ _ _. split; reflexivity.
    + split; [reflexivity|]. intros _ path _ H. discriminate.
  - split; [reflexivity|]. intros token path H. discriminate.
Qed.

Lemma no_pull_request_exits_cleanly_witness :
  payload_pull_request (context (sample_world true None [] JNull)) = None
  /\ run literal_match (sample_world true None [] JNull)
     = [ConsoleLog "Could not get pull request number from context, exiting"].
Proof.
  split; [reflexivity|].
  exact (proj1 (proj2 (no_pull_request_exits_cleanly literal_match
                         (sample_world true None [] JNull) eq_refl)
                  "secret" ".github/labeler.yml" eq_refl eq_refl)).
Defined.

(** ** Scenarios *)

Example enumerate_order :
  for_in (JObj [("b", JNull); ("10", JNull); ("2", JNull); ("01", JNull)])
  = ["2"; "10"; "b"; "01"].
Proof. reflexivity. Qed.

Example parse_scenario3 :
  getLabelGlobMapFromObject
    (JObj [("removed-only",
            JArr [JStr "src/a.ts"; JObj [("on", JStr "removed")]])])
  = Ok [("removed-only", (["src/a.ts"], [JStr "removed"]))].
Proof. reflexivity. Qed.

Example select_scenario3_modified :
  selectLabels literal_match
    [{| filename := "src/a.ts"; status := "modified" |}]
    [("removed-only", (["src/a.ts"], [JStr "removed"]))]
  = Ok [].
Proof. reflexivity. Qed.

Example select_scenario3_removed :
  selectLabels literal_match
    [{| filename := "src/a.ts"; status := "removed" |}]
    [("removed-only", (["src/a.ts"], [JStr "removed"]))]
  = Ok ["removed-only"].
Proof. reflexivity. Qed.

Example parse_scenario5 :
  getLabelGlobMapFromObject (JObj [("bad", JNum 42)])
  = Throw (UnexpectedLabelType "bad").
Proof. reflexivity. Qed.

Example parse_null_element :
  getLabelGlobMapFromObject (JObj [("x", JArr [JStr "a"; JNull])])
  = Throw (PropertyOfNullish "null" "on").
Proof. reflexivity. Qed.

Example parse_top_level_sequence :
  getLabelGlobMapFromObject (JArr [JStr "a"; JArr [JStr "b"]])
  = Ok [("0", (["a"], ALL_STATUS)); ("1", (["b"], ALL_STATUS))].
Proof. reflexivity. Qed.

Example parse_empty_document :
  getLabelGlobMapFromObject JUndefined = Ok [].
Proof. reflexivity. Qed.

Example run_scenario2 :
  run literal_match
      (sample_world true (Some 7%Z)
         [{| filename := "README.txt"; status := "modified" |}]
         (JObj [("docs", JStr "README.md")]))
  = [PullsListFiles "octo" "demo" 7;
     ReposGetContents "octo" "demo" ".github/labeler.yml" "0a1b2c"].
Proof. reflexivity. Qed.

Example run_unconvertible_status :
  run literal_match
      (sample_world true (Some 7%Z)
         [{| filename := "a"; status := "added" |}]
         (JObj [("x", JArr [JStr "a";
                            JObj [("on", JArr [JStr "added";
                                               JObj [("toString", JNum 1)]])]])]))
  = [PullsListFiles "octo" "demo" 7;
     ReposGetContents "octo" "demo" ".github/labeler.yml" "0a1b2c";
     CoreError CannotConvert;
     CoreSetFailed "Cannot convert object to primitive value"].
Proof. reflexivity. Qed.

(** * Further properties of the code *)

(** ** The run, case by case *)

(** The whole of [run], as one case analysis on what the collaborators
    answer, in the order in which the code asks them. *)
Lemma run_cases m w :
  run m w =
  match core_getInput w "repo-token" with
  | Throw e => fail_tail e
  | Ok _ =>
    match core_getInput w "configuration-path" with
    | Throw e => fail_tail e
    | Ok path =>
      if falsy (payload_pull_request (context w)) then
        [ConsoleLog "Could not get pull request number from context, exiting"]
      else
        match payload_pull_request (context w) with
        | None => []
        | Some n =>
          PullsListFiles (repo_owner (context w)) (repo_repo (context w)) n ::
          match pulls_listFiles w (repo_owner (context w))
                  (repo_repo (context w)) n with
          | Throw e => fail_tail e
          | Ok files =>
            ReposGetContents (repo_owner (context w)) (repo_repo (context w))
              path (sha (context w)) ::
            match repos_getContents w (repo_owner (context w))
                    (repo_repo (context w)) path (sha (context w)) with
            | Throw e => fail_tail e
            | Ok response =>
              match Buffer_toString w (content response) (encoding response)
              with
              | Throw e => fail_tail e
              | Ok text =>
                match yaml_safeLoad w text with
                | Throw e => fail_tail e
                | Ok configObject =>
                  match getLabelGlobMapFromObject configObject with
                  | Throw e => fail_tail e
                  | Ok ruleSet =>
                    match selectLabels m files ruleSet with
                    | Throw e => fail_tail e
                    | Ok [] => []
                    | Ok (l :: ls) =>
                      IssuesAddLabels (repo_owner (context w))
                        (repo_repo (context w)) n (l :: ls) ::
                      catch_tail
                        (issues_addLabels w (repo_owner (context w))
                           (repo_repo (context w)) n (l :: ls))
                    end
                  end
                end
              end
            end
          end
        end
    end
  end.
Proof.
  unfold run, tryBlock, selection, getPrNumber, getChangedFiles,
    getLabelGlobs, fetchContent, addLabels, call, lift, emit, act_ret,
    act_bind, fail_tail, catch_tail.
  destruct (core_getInput w "repo-token"); [|reflexivity].
  destruct (core_getInput w "configuration-path") as [path|]; [|reflexivity].
  destruct (falsy (payload_pull_request (context w))); [reflexivity|].
  destruct (payload_pull_request (context w)) as [n|]; [|reflexivity].
  destruct (pulls_listFiles w _ _ n) as [files|]; [|reflexivity].
  destruct (repos_getContents w _ _ path _) as [response|]; [|reflexivity].
  destruct (Buffer_toString w _ _) as [text|]; [|reflexivity].
  destruct (yaml_safeLoad w text) as [configObject|]; [|reflexivity].
  destruct (getLabelGlobMapFromObject configObject) as [ruleSet|];
    [|reflexivity].
  destruct (selectLabels m files ruleSet) as [[|l ls]|]; [| |reflexivity].
  - reflexivity.
  - cbv beta iota zeta. cbn [app List.length Nat.ltb Nat.leb].
    destruct (issues_addLabels w _ _ n (l :: ls)); reflexivity.
Qed.

Lemma falsy_nonzero n : n <> 0%Z -> falsy (Some n) = false.
Proof. intros H. simpl. now apply Z.eqb_neq. Qed.

(** X1. A run that gets through the inputs, the changed files and the
    configuration with the label list [labels] leaves exactly this
    trace: the two reads, then, if the list is not empty, the one call
    that adds the labels, followed by the failure report if that call
    throws. *)
Theorem run_trace_when_selected (Minimatch : string -> result (string -> bool))
  (w : World) (n : Z) (labels : list string) (path : string) :
  selects Minimatch w n labels ->
  core_getInput w "configuration-path" = Ok path ->
  run Minimatch w =
  PullsListFiles (repo_owner (context w)) (repo_repo (context w)) n
  :: ReposGetContents (repo_owner (context w)) (repo_repo (context w))
       path (sha (context w))
  :: match labels with
     | [] => []
     | _ :: _ =>
         IssuesAddLabels (repo_owner (context w)) (repo_repo (context w))
           n labels
         :: catch_tail (issues_addLabels w (repo_owner (context w))
                          (repo_repo (context w)) n labels)
     end.
Proof.
  intros (token & path' & files & response & text & cfg & rs & Htoken
          & Hpath' & Hpr & Hn & Hfiles & Hresp & Ht & Hcfg & Hrs & Hsel)
         Hpath.
  assert (path' = path) by congruence. subst path'.
  rewrite run_cases, Htoken, Hpath, Hpr, (falsy_nonzero _ Hn), Hfiles,
    Hresp, Ht, Hcfg, Hrs, Hsel.
  destruct labels; reflexivity.
Qed.

Lemma run_trace_when_selected_witness :
  let w := sample_world true (Some 7%Z)
             [{| filename := "README.md"; status := "modified" |}]
             (JObj [("docs", JStr "README.md"); ("src", JStr "main.ts")]) in
  selects literal_match w 7 ["docs"]
  /\ run literal_match w
     = [PullsListFiles "octo" "demo" 7;
        ReposGetContents "octo" "demo" ".github/labeler.yml" "0a1b2c";
        IssuesAddLabels "octo" "demo" 7 ["docs"]].
Proof.
  intros w.
  assert (S : selects literal_match w 7 ["docs"]).
  { exists "secret", ".github/labeler.yml",
      [{| filename := "README.md"; status := "modified" |}],
      {| content := "ZG9jczogJyoubWQn"; encoding := "base64" |},
      "ZG9jczogJyoubWQn",
      (JObj [("docs", JStr "README.md"); ("src", JStr "main.ts")]),
      [("docs", (["README.md"], ALL_STATUS));
       ("src", (["main.ts"], ALL_STATUS))].
    repeat split; try reflexivity. discriminate. }
  split; [exact S|].
  exact (run_trace_when_selected literal_match w 7 ["docs"]
           ".github/labeler.yml" S eq_refl).
Defined.

(** X2. The client is asked at most three things, always in the same
    order: the changed files, the configuration, the labels to add. The
    calls of any run are an initial part of that sequence. *)
Theorem run_client_calls_in_order (Minimatch : string -> result (string -> bool))
  (w : World) :
  exists k n path labels,
    filter is_client_call (run Minimatch w)
    = firstn k (client_calls w n path labels).
Proof.
  rewrite run_cases. unfold client_calls, fail_tail.
  destruct (core_getInput w "repo-token");
    [|exists 0, 0%Z, "", []; reflexivity].
  destruct (core_getInput w "configuration-path") as [path|];
    [|exists 0, 0%Z, "", []; reflexivity].
  destruct (falsy (payload_pull_request (context w)));
    [exists 0, 0%Z, "", []; reflexivity|].
  destruct (payload_pull_request (context w)) as [n|];
    [|exists 0, 0%Z, "", []; reflexivity].
  destruct (pulls_listFiles w _ _ n) as [files|];
    [|exists 1, n, path, []; reflexivity].
  destruct (repos_getContents w _ _ path _) as [response|];
    [|exists 2, n, path, []; reflexivity].
  destruct (Buffer_toString w _ _) as [text|];
    [|exists 2, n, path, []; reflexivity].
  destruct (yaml_safeLoad w text) as [cfg|];
    [|exists 2, n, path, []; reflexivity].
  destruct (getLabelGlobMapFromObject cfg) as [rs|];
    [|exists 2, n, path, []; reflexivity].
  destruct (selectLabels Minimatch files rs) as [[|l ls]|];
    [exists 2, n, path, []; reflexivity|
    |exists 2, n, path, []; reflexivity].
  exists 3, n, path, (l :: ls).
  destruct (issues_addLabels w _ _ n (l :: ls)); reflexivity.
Qed.

(** X3. A run ends without a failure signal exactly when both inputs
    are supplied and either the event has no pull-request number (or
    the number 0), or every read succeeds, the configuration parses, and
    the labels are none or are added without an error. *)
Theorem run_succeeds_iff (Minimatch : string -> result (string -> bool))
  (w : World) :
  existsb is_failure (run Minimatch w) = false
  <-> exists token path,
        core_getInput w "repo-token" = Ok token
        /\ core_getInput w "configuration-path" = Ok path
        /\ (falsy (payload_pull_request (context w)) = true
            \/ exists n labels,
                 selects Minimatch w n labels
                 /\ (labels = []
                     \/ issues_addLabels w (repo_owner (context w))
                          (repo_repo (context w)) n labels = Ok tt)).
Proof.
  rewrite run_cases. unfold selects, fail_tail.
  destruct (core_getInput w "repo-token") as [token|e] eqn:Htoken;
    [|split; [discriminate|intros (? & ? & [=] & _)]].
  destruct (core_getInput w "configuration-path") as [path|e] eqn:Hpath;
    [|split; [discriminate|intros (? & ? & _ & [=] & _)]].
  destruct (falsy (payload_pull_request (context w))) eqn:Hf.
  { split; [intros _; exists token, path; auto|reflexivity]. }
  destruct (payload_pull_request (context w)) as [n|] eqn:Hpr;
    [|discriminate].
  assert (Hn : n <> 0%Z) by (intros ->; discriminate).
  split.
  - intros H. exists token, path. repeat split. right.
    destruct (pulls_listFiles w _ _ n) as [files|] eqn:Hfiles;
      [|discriminate].
    destruct (repos_getContents w _ _ path _) as [response|] eqn:Hresp;
      [|discriminate].
    destruct (Buffer_toString w _ _) as [text|] eqn:Ht; [|discriminate].
    destruct (yaml_safeLoad w text) as [cfg|] eqn:Hcfg; [|discriminate].
    destruct (getLabelGlobMapFromObject cfg) as [rs|] eqn:Hrs;
      [|discriminate].
    destruct (selectLabels Minimatch files rs) as [labels|] eqn:Hsel;
      [|discriminate].
    exists n, labels. split.
    + exists token, path, files, response, text, cfg, rs. repeat split; auto.
    + destruct labels as [|l ls]; [now left|right].
      destruct (issues_addLabels w _ _ n (l :: ls)) as [[]|];
        [reflexivity|discriminate].
  - intros (token' & path' & _ & [= <-] & [H|H]); [discriminate|].
    destruct H as (n' & labels & Hsel & Hadd).
    destruct Hsel as (tk & pa & files & response & text & cfg & rs & _
                      & Hpa & [= <-] & _ & Hfiles & Hresp & Ht & Hcfg
                      & Hrs & Hsel).
    assert (pa = path) by congruence. subst pa.
    rewrite Hfiles, Hresp, Ht, Hcfg, Hrs, Hsel.
    destruct Hadd as [->|Hadd]; [reflexivity|].
    destruct labels; [reflexivity|].
    now rewrite Hadd.
Qed.

(** X4. When listing the changed files throws, the run stops there: the
    configuration is never fetched, no label is added, and the failure
    is reported with the error's message. *)
Theorem listFiles_failure_stops_run
  (Minimatch : string -> result (string -> bool)) (w : World)
  (token path : string) (n : Z) (error : Thrown) :
  core_getInput w "repo-token" = Ok token ->
  core_getInput w "configuration-path" = Ok path ->
  payload_pull_request (context w) = Some n ->
  n <> 0%Z ->
  pulls_listFiles w (repo_owner (context w)) (repo_repo (context w)) n
  = Throw error ->
  run Minimatch w
  = [PullsListFiles (repo_owner (context w)) (repo_repo (context w)) n;
     CoreError error; CoreSetFailed (message error)].
Proof.
  intros Htoken Hpath Hpr Hn Hfiles.
  now rewrite run_cases, Htoken, Hpath, Hpr, (falsy_nonzero _ Hn), Hfiles.
Qed.

Lemma listFiles_failure_stops_run_witness :
  let w := {| core_getInput := fun _ => Ok "x";
              context := sample_context (Some 3%Z);
              pulls_listFiles := fun _ _ _ => Throw (External "Not Found");
              repos_getContents := fun _ _ _ _ =>
                Ok {| content := ""; encoding := "base64" |};
              Buffer_toString := fun c _ => Ok c;
              yaml_safeLoad := fun _ => Ok JNull;
              issues_addLabels := fun _ _ _ _ => Ok tt |} in
  run literal_match w
  = [PullsListFiles "octo" "demo" 3;
     CoreError (External "Not Found"); CoreSetFailed "Not Found"].
Proof.
  intros w.
  refine (listFiles_failure_stops_run literal_match w "x" "x" 3
            (External "Not Found") eq_refl eq_refl eq_refl _ eq_refl).
  discriminate.
Defined.

Lemma getLabelGlobs_throw w path error :
  outcome_of (getLabelGlobs w path) = Throw error ->
  match repos_getContents w (repo_owner (context w)) (repo_repo (context w))
          path (sha (context w)) with
  | Throw e => e = error
  | Ok response =>
      match Buffer_toString w (content response) (encoding response) with
      | Throw e => e = error
      | Ok text =>
          match yaml_safeLoad w text with
          | Throw e => e = error
          | Ok configObject =>
              getLabelGlobMapFromObject configObject = Throw error
          end
      end
  end.
Proof.
  unfold getLabelGlobs, fetchContent, call, lift, act_bind, outcome_of.
  destruct (repos_getContents w _ _ path _) as [response|]; cbn;
    [|congruence].
  destruct (Buffer_toString w _ _) as [text|]; cbn; [|congruence].
  destruct (yaml_safeLoad w text) as [cfg|]; cbn; congruence.
Qed.

(** X5. When the configuration cannot be had (fetching it, decoding it,
    loading the YAML or parsing the labels throws), the run has listed
    the files and asked for the configuration, adds no label, and
    reports the failure with the error's message. *)
Theorem config_failure_stops_run
  (Minimatch : string -> result (string -> bool)) (w : World)
  (token path : string) (n : Z) (files : list File) (error : Thrown) :
  core_getInput w "repo-token" = Ok token ->
  core_getInput w "configuration-path" = Ok path ->
  payload_pull_request (context w) = Some n ->
  n <> 0%Z ->
  pulls_listFiles w (repo_owner (context w)) (repo_repo (context w)) n
  = Ok files ->
  outcome_of (getLabelGlobs w path) = Throw error ->
  run Minimatch w
  = [PullsListFiles (repo_owner (context w)) (repo_repo (context w)) n;
     ReposGetContents (repo_owner (context w)) (repo_repo (context w))
       path (sha (context w));
     CoreError error; CoreSetFailed (message error)].
Proof.
  intros Htoken Hpath Hpr Hn Hfiles Hthrow.
  apply getLabelGlobs_throw in Hthrow.
  rewrite run_cases, Htoken, Hpath, Hpr, (falsy_nonzero _ Hn), Hfiles.
  destruct (repos_getContents w _ _ path _) as [response|];
    [|now subst].
  destruct (Buffer_toString w _ _) as [text|]; [|now subst].
  destruct (yaml_safeLoad w text) as [cfg|]; [|now subst].
  now rewrite Hthrow.
Qed.

Lemma config_failure_stops_run_witness :
  run literal_match
      (sample_world true (Some 7%Z)
         [{| filename := "a"; status := "added" |}]
         (JObj [("x", JArr [JStr "a"; JNum 1])]))
  = [PullsListFiles "octo" "demo" 7;
     ReposGetContents "octo" "demo" ".github/labeler.yml" "0a1b2c";
     CoreError UnexpectedElement; CoreSetFailed "found unexpected ..."].
Proof.
  refine (config_failure_stops_run literal_match
            (sample_world true (Some 7%Z)
               [{| filename := "a"; status := "added" |}]
               (JObj [("x", JArr [JStr "a"; JNum 1])]))
            "secret" ".github/labeler.yml" 7
            [{| filename := "a"; status := "added" |}] UnexpectedElement
            eq_refl eq_refl eq_refl _ eq_refl eq_refl).
  discriminate.
Defined.

(** X6. A pull request whose number is 0 counts as no pull request: the
    test is [!prNumber], and the run logs and returns without asking the
    client anything. *)
Theorem pull_request_zero_exits (Minimatch : string -> result (string -> bool))
  (w : World) (token path : string) :
  core_getInput w "repo-token" = Ok token ->
  core_getInput w "configuration-path" = Ok path ->
  payload_pull_request (context w) = Some 0%Z ->
  run Minimatch w
  = [ConsoleLog "Could not get pull request number from context, exiting"].
Proof.
  intros Htoken Hpath Hpr. now rewrite run_cases, Htoken, Hpath, Hpr.
Qed.

Lemma pull_request_zero_exits_witness :
  run literal_match
      (sample_world true (Some 0%Z)
         [{| filename := "a"; status := "added" |}] (JObj [("x", JStr "a")]))
  = [ConsoleLog "Could not get pull request number from context, exiting"].
Proof.
  exact (pull_request_zero_exits literal_match
           (sample_world true (Some 0%Z)
              [{| filename := "a"; status := "added" |}]
              (JObj [("x", JStr "a")]))
           "secret" ".github/labeler.yml" eq_refl eq_refl eq_refl).
Defined.

(** X7. Whenever a run asks for the configuration, it asks for the file
    named by the [configuration-path] input, in the repository of the
    event, at the commit of the event. *)
Theorem config_fetched_at_event_commit
  (Minimatch : string -> result (string -> bool)) (w : World)
  (owner repo path ref : string) :
  In (ReposGetContents owner repo path ref) (run Minimatch w) ->
  core_getInput w "configuration-path" = Ok path
  /\ owner = repo_owner (context w)
  /\ repo = repo_repo (context w)
  /\ ref = sha (context w).
Proof.
  rewrite run_cases. unfold fail_tail.
  destruct (core_getInput w "repo-token");
    [|intros [H|[H|[]]]; discriminate].
  destruct (core_getInput w "configuration-path") as [path'|];
    [|intros [H|[H|[]]]; discriminate].
  destruct (falsy (payload_pull_request (context w)));
    [intros [H|[]]; discriminate|].
  destruct (payload_pull_request (context w)) as [n|]; [|intros []].
  intros [H|H]; [discriminate|].
  destruct (pulls_listFiles w _ _ n) as [files|];
    [|destruct H as [H|[H|[]]]; discriminate].
  destruct H as [H|H]; [now inversion H|exfalso].
  destruct (repos_getContents w _ _ path' _) as [response|];
    [|destruct H as [H|[H|[]]]; discriminate].
  destruct (Buffer_toString w _ _) as [text|];
    [|destruct H as [H|[H|[]]]; discriminate].
  destruct (yaml_safeLoad w text) as [cfg|];
    [|destruct H as [H|[H|[]]]; discriminate].
  destruct (getLabelGlobMapFromObject cfg) as [rs|];
    [|destruct H as [H|[H|[]]]; discriminate].
  destruct (selectLabels Minimatch files rs) as [[|l ls]|];
    [destruct H| |destruct H as [H|[H|[]]]; discriminate].
  destruct H as [H|H]; [discriminate|].
  destruct (issues_addLabels w _ _ n (l :: ls));
    [destruct H|destruct H as [H|[H|[]]]; discriminate].
Qed.

Lemma config_fetched_at_event_commit_witness :
  core_getInput
    (sample_world true (Some 7%Z) [] (JObj [("docs", JStr "README.md")]))
    "configuration-path" = Ok ".github/labeler.yml".
Proof.
  apply (config_fetched_at_event_commit literal_match
           (sample_world true (Some 7%Z) [] (JObj [("docs", JStr "README.md")]))
           "octo" "demo" ".github/labeler.yml" "0a1b2c").
  simpl. auto.
Defined.

(** ** Rule evaluation, further *)

Lemma bool_eq_iff (a b : bool) : (a = true <-> b = true) -> a = b.
Proof. destruct a, b; intuition congruence. Qed.

Lemma checkFiles_app matcher f1 f2 sts :
  checkFiles matcher (f1 ++ f2) sts
  = checkFiles matcher f1 sts || checkFiles matcher f2 sts.
Proof.
  induction f1 as [|f f1 IH]; simpl; [reflexivity|].
  destruct (matcher (filename f) && JS.includes sts (file_status f));
    [reflexivity|exact IH].
Qed.

Lemma checkFiles_incl matcher files files' sts sts' :
  incl files files' -> incl sts sts' ->
  checkFiles matcher files sts = true ->
  checkFiles matcher files' sts' = true.
Proof.
  intros Hf Hs H. apply checkFiles_iff in H.
  destruct H as (f & Hin & Hm & Hst). apply checkFiles_iff.
  exists f. auto.
Qed.

Lemma converts_incl sts sts' :
  incl sts sts' -> forallb converts sts' = true ->
  forallb converts sts = true.
Proof.
  rewrite !forallb_forall. intros Hincl H v Hv. apply H. now apply Hincl.
Qed.

Lemma glob_matches_iff m g path :
  glob_matches m g path = true
  <-> exists matcher, m g = Ok matcher /\ matcher path = true.
Proof.
  unfold glob_matches. destruct (m g) as [matcher|].
  - split; [eauto|intros (mt & [= <-] & H); exact H].
  - split; [discriminate|intros (mt & [=] & _)].
Qed.

(** X8. Evaluation composes.  Over globs [g1 ++ g2] it is the
    evaluation over [g1], followed by the one over [g2] when the first
    answers false.  Over files [f1 ++ f2] it answers the disjunction of
    the answers for [f1] and for [f2], when both evaluations return. *)
Theorem checkGlobs_app (Minimatch : string -> result (string -> bool))
  (f1 f2 : list File) (g1 g2 : list string) (statusFilter : list value) :
  checkGlobs Minimatch f1 (g1 ++ g2) statusFilter
  = match checkGlobs Minimatch f1 g1 statusFilter with
    | Ok true => Ok true
    | Ok false => checkGlobs Minimatch f1 g2 statusFilter
    | Throw error => Throw error
    end
  /\ forall b1 b2,
       checkGlobs Minimatch f1 g1 statusFilter = Ok b1 ->
       checkGlobs Minimatch f2 g1 statusFilter = Ok b2 ->
       checkGlobs Minimatch (f1 ++ f2) g1 statusFilter = Ok (b1 || b2).
Proof.
  split.
  - induction g1 as [|g g1 IH]; [reflexivity|].
    cbn [app]. rewrite !checkGlobs_cons.
    destruct (forallb converts statusFilter); [|reflexivity].
    destruct (Minimatch g) as [matcher|]; [|reflexivity].
    destruct (checkFiles matcher f1 statusFilter); [reflexivity|exact IH].
  - induction g1 as [|g g1 IH]; intros b1 b2 H1 H2.
    + inversion H1; inversion H2; reflexivity.
    + rewrite checkGlobs_cons in *.
      destruct (forallb converts statusFilter); [|discriminate].
      destruct (Minimatch g) as [matcher|]; [|discriminate].
      rewrite checkFiles_app.
      destruct (checkFiles matcher f1 statusFilter).
      * inversion H1; subst. reflexivity.
      * destruct (checkFiles matcher f2 statusFilter).
        -- inversion H2; subst. cbn [orb]. now rewrite orb_true_r.
        -- cbn [orb]. now apply IH.
Qed.

Lemma checkGlobs_app_witness :
  checkGlobs literal_match
    ([{| filename := "c"; status := "added" |}]
       ++ [{| filename := "b"; status := "added" |}])
    ["b"; "z"] [JStr "added"]
  = Ok (false || true).
Proof.
  exact (proj2 (checkGlobs_app literal_match
                  [{| filename := "c"; status := "added" |}]
                  [{| filename := "b"; status := "added" |}]
                  ["b"; "z"] [] [JStr "added"])
           false true eq_refl eq_refl).
Defined.

(** X9. A rule that matched still matches with more changed files,
    with more statuses in the filter as long as the filter keeps a
    string conversion, and with more globs after its own. *)
Theorem checkGlobs_monotone (Minimatch : string -> result (string -> bool))
  (files files' : list File) (globs more : list string)
  (sts sts' : list value) :
  incl files files' -> incl sts sts' ->
  forallb converts sts' = true ->
  checkGlobs Minimatch files globs sts = Ok true ->
  checkGlobs Minimatch files' (globs ++ more) sts' = Ok true.
Proof.
  intros Hf Hs Hc'. induction globs as [|g globs IH]; intros H;
    [discriminate|].
  rewrite checkGlobs_cons in H. cbn [app]. rewrite checkGlobs_cons, Hc'.
  destruct (forallb converts sts); [|discriminate].
  destruct (Minimatch g) as [matcher|]; [|discriminate].
  destruct (checkFiles matcher files sts) eqn:E.
  - now rewrite (checkFiles_incl _ _ _ _ _ Hf Hs E).
  - destruct (checkFiles matcher files' sts'); [reflexivity|now apply IH].
Qed.

Lemma checkGlobs_monotone_witness :
  checkGlobs literal_match
    [{| filename := "b"; status := "added" |};
     {| filename := "a"; status := "removed" |}]
    (["a"] ++ ["z"]) [JStr "modified"; JStr "removed"]
  = Ok true.
Proof.
  refine (checkGlobs_monotone literal_match
            [{| filename := "a"; status := "removed" |}]
            [{| filename := "b"; status := "added" |};
             {| filename := "a"; status := "removed" |}]
            ["a"] ["z"] [JStr "removed"] [JStr "modified"; JStr "removed"]
            _ _ eq_refl eq_refl);
    intros x [<-|[]]; simpl; auto.
Defined.

Lemma rule_matches_perm m files files' globs globs' sts sts' :
  Permutation globs globs' -> Permutation files files' ->
  Permutation sts sts' ->
  rule_matches m files globs sts -> rule_matches m files' globs' sts'.
Proof.
  intros Hg Hf Hs (g & f & mt & Hing & Hinf & Hmt & Hm & Hst).
  exists g, f, mt. repeat split; try assumption.
  - now apply (Permutation_in _ Hg).
  - now apply (Permutation_in _ Hf).
  - now apply (Permutation_in _ Hs).
Qed.

Lemma checkFiles_perm matcher files files' sts sts' :
  Permutation files files' -> Permutation sts sts' ->
  checkFiles matcher files sts = checkFiles matcher files' sts'.
Proof.
  intros Hf Hs. apply bool_eq_iff. split; apply checkFiles_incl;
    intros x Hx.
  - exact (Permutation_in _ Hf Hx).
  - exact (Permutation_in _ Hs Hx).
  - exact (Permutation_in _ (Permutation_sym Hf) Hx).
  - exact (Permutation_in _ (Permutation_sym Hs) Hx).
Qed.

Lemma converts_perm sts sts' :
  Permutation sts sts' ->
  forallb converts sts = forallb converts sts'.
Proof.
  intros Hs. apply bool_eq_iff. split; apply converts_incl; intros x Hx.
  - exact (Permutation_in _ (Permutation_sym Hs) Hx).
  - exact (Permutation_in _ Hs Hx).
Qed.

(** X10. The order of the changed files and of the statuses never
    changes the outcome.  The order of the globs does not change it
    when every glob compiles; in general it can decide between an
    answer and a throw, but two evaluations that both return agree. *)
Theorem checkGlobs_order_independent
  (Minimatch : string -> result (string -> bool))
  (files files' : list File) (globs globs' : list string)
  (sts sts' : list value) :
  Permutation files files' -> Permutation sts sts' ->
  Permutation globs globs' ->
  checkGlobs Minimatch files globs sts = checkGlobs Minimatch files' globs sts'
  /\ ((forall glob, In glob globs -> compiles Minimatch glob) ->
      checkGlobs Minimatch files globs sts
      = checkGlobs Minimatch files' globs' sts')
  /\ (forall b b',
         checkGlobs Minimatch files globs sts = Ok b ->
         checkGlobs Minimatch files' globs' sts' = Ok b' ->
         b = b').
Proof.
  intros Hf Hs Hg.
  assert (Hsame : forall b b',
             checkGlobs Minimatch files globs sts = Ok b ->
             checkGlobs Minimatch files' globs' sts' = Ok b' -> b = b').
  { intros b b' H H'. apply checkGlobs_sound in H.
    apply checkGlobs_sound in H'. apply bool_eq_iff. rewrite H, H'.
    split; apply rule_matches_perm; auto using Permutation_sym. }
  split; [|split; [|exact Hsame]].
  - clear Hg Hsame. induction globs as [|g globs IH]; [reflexivity|].
    rewrite !checkGlobs_cons, (converts_perm _ _ Hs).
    destruct (forallb converts sts'); [|reflexivity].
    destruct (Minimatch g) as [matcher|]; [|reflexivity].
    rewrite (checkFiles_perm matcher _ _ _ _ Hf Hs).
    destruct (checkFiles matcher files' sts'); [reflexivity|exact IH].
  - intros Hall. destruct (forallb converts sts) eqn:Hc.
    + destruct (checkGlobs_returns Minimatch files globs sts Hc Hall)
        as [b Hb].
      destruct (checkGlobs_returns Minimatch files' globs' sts') as [b' Hb'].
      * now rewrite <- (converts_perm _ _ Hs).
      * intros g Hin. apply Hall.
        now apply (Permutation_in _ (Permutation_sym Hg)).
      * rewrite Hb, Hb'. f_equal. eapply Hsame; eassumption.
    + destruct globs as [|g globs].
      * apply Permutation_nil in Hg. now subst.
      * destruct globs' as [|g' globs'].
        { apply Permutation_sym, Permutation_nil in Hg. discriminate. }
        rewrite !checkGlobs_cons, <- (converts_perm _ _ Hs), Hc.
        reflexivity.
Qed.

Lemma checkGlobs_order_independent_witness :
  checkGlobs literal_match
    [{| filename := "b"; status := "added" |};
     {| filename := "a"; status := "removed" |}]
    ["z"; "a"] [JStr "modified"; JStr "removed"]
  = checkGlobs literal_match
      [{| filename := "a"; status := "removed" |};
       {| filename := "b"; status := "added" |}]
      ["a"; "z"] [JStr "removed"; JStr "modified"].
Proof.
  refine (proj1 (proj2 (checkGlobs_order_independent literal_match
                          _ _ ["z"; "a"] ["a"; "z"] _ _
                          (perm_swap _ _ _) (perm_swap _ _ _)
                          (perm_swap _ _ _))) _).
  intros glob _. exists (String.eqb glob). reflexivity.
Defined.

(** X11. A rule without an [on] entry has the filter added, modified,
    removed, and nothing else: when every changed file has another
    status (the client also reports renamed files), the rule never
    evaluates to true; it evaluates to false when every glob compiles. *)
Theorem default_filter_skips_other_statuses
  (Minimatch : string -> result (string -> bool))
  (files : list File) (globs : list string) :
  (forall f, In f files ->
             ~ In (status f) ["added"; "modified"; "removed"]) ->
  checkGlobs Minimatch files globs ALL_STATUS <> Ok true
  /\ ((forall glob, In glob globs -> compiles Minimatch glob) ->
      checkGlobs Minimatch files globs ALL_STATUS = Ok false).
Proof.
  intros H.
  assert (Hno : checkGlobs Minimatch files globs ALL_STATUS <> Ok true).
  { intros E. apply checkGlobs_sound in E.
    destruct (proj1 E eq_refl) as (g & f & mt & _ & Hf & _ & _ & Hs).
    apply (H f Hf). unfold ALL_STATUS in Hs. simpl in *.
    destruct Hs as [Hs|[Hs|[Hs|[]]]]; inversion Hs; auto. }
  split; [exact Hno|]. intros Hall.
  destruct (checkGlobs_returns Minimatch files globs ALL_STATUS eq_refl Hall)
    as [[] Hb]; [contradiction|exact Hb].
Qed.

Lemma default_filter_skips_other_statuses_witness :
  checkGlobs literal_match
    [{| filename := "docs/new.md"; status := "renamed" |}]
    ["docs/new.md"] ALL_STATUS
  = Ok false.
Proof.
  refine (proj2 (default_filter_skips_other_statuses literal_match
                   [{| filename := "docs/new.md"; status := "renamed" |}]
                   ["docs/new.md"] _) _).
  - intros f [<-|[]]. simpl. intuition discriminate.
  - intros glob _. exists (String.eqb glob). reflexivity.
Defined.

(** X12. When every changed file is added, modified or removed, a rule
    with the default filter, whenever its evaluation returns, answers
    whether one of its globs matches one of the paths; and the
    evaluation returns when every glob compiles. *)
Theorem default_filter_is_glob_match
  (Minimatch : string -> result (string -> bool))
  (files : list File) (globs : list string) :
  (forall f, In f files ->
             In (status f) ["added"; "modified"; "removed"]) ->
  (forall answer,
      checkGlobs Minimatch files globs ALL_STATUS = Ok answer ->
      answer
      = existsb
          (fun g => existsb (fun f => glob_matches Minimatch g (filename f))
                            files)
          globs)
  /\ ((forall glob, In glob globs -> compiles Minimatch glob) ->
      exists answer, checkGlobs Minimatch files globs ALL_STATUS = Ok answer).
Proof.
  intros H. split; [|now apply checkGlobs_returns].
  intros answer Hb. apply checkGlobs_sound in Hb. apply bool_eq_iff.
  rewrite Hb, existsb_exists. split.
  - intros (g & f & mt & Hg & Hf & Hmt & Hm & _). exists g.
    split; [assumption|]. apply existsb_exists. exists f.
    split; [assumption|]. apply glob_matches_iff. eauto.
  - intros (g & Hg & Hex). apply existsb_exists in Hex.
    destruct Hex as (f & Hf & Hm). apply glob_matches_iff in Hm.
    destruct Hm as (mt & Hmt & Hm). exists g, f, mt. repeat split; auto.
    specialize (H f Hf). unfold ALL_STATUS. simpl in *.
    destruct H as [<-|[<-|[<-|[]]]]; auto.
Qed.

Lemma default_filter_is_glob_match_witness :
  exists answer,
    checkGlobs literal_match
      [{| filename := "a"; status := "added" |};
       {| filename := "b"; status := "removed" |}]
      ["c"; "b"] ALL_STATUS
    = Ok answer.
Proof.
  refine (proj2 (default_filter_is_glob_match literal_match
                   [{| filename := "a"; status := "added" |};
                    {| filename := "b"; status := "removed" |}]
                   ["c"; "b"] _) _).
  - intros f [<-|[<-|[]]]; simpl; auto.
  - intros glob _. exists (String.eqb glob). reflexivity.
Defined.

Lemma strings_convert sts : forallb converts (filter is_string sts) = true.
Proof.
  apply forallb_forall. intros v Hv. apply filter_In in Hv.
  destruct Hv as [_ Hv]. destruct v; try discriminate. reflexivity.
Qed.

Lemma checkFiles_strings matcher files sts :
  checkFiles matcher files (filter is_string sts)
  = checkFiles matcher files sts.
Proof.
  apply bool_eq_iff. rewrite !checkFiles_iff.
  split; intros (f & Hf & Hm & Hs); exists f; repeat split; auto.
  - apply filter_In in Hs. tauto.
  - apply filter_In. auto.
Qed.

(** X13. Only the strings of a status filter count for the answer:
    whenever an evaluation returns, the evaluation with the non-string
    entries of the filter dropped returns the same answer. *)
Theorem non_string_statuses_irrelevant
  (Minimatch : string -> result (string -> bool))
  (files : list File) (globs : list string) (sts : list value)
  (answer : bool) :
  checkGlobs Minimatch files globs sts = Ok answer ->
  checkGlobs Minimatch files globs (filter is_string sts) = Ok answer.
Proof.
  induction globs as [|g globs IH]; intros H; [exact H|].
  rewrite checkGlobs_cons in *. rewrite strings_convert.
  destruct (forallb converts sts); [|discriminate].
  destruct (Minimatch g) as [matcher|]; [|discriminate].
  rewrite checkFiles_strings.
  destruct (checkFiles matcher files sts); [exact H|now apply IH].
Qed.

Lemma non_string_statuses_irrelevant_witness :
  checkGlobs literal_match [{| filename := "a"; status := "added" |}]
    ["a"] (filter is_string [JNum 1; JStr "added"; JNull])
  = Ok true.
Proof.
  exact (non_string_statuses_irrelevant literal_match
           [{| filename := "a"; status := "added" |}] ["a"]
           [JNum 1; JStr "added"; JNull] true eq_refl).
Defined.

(** ** Label selection, further *)

Lemma checkGlobs_no_files m globs sts : checkGlobs m [] globs sts <> Ok true.
Proof.
  induction globs as [|g globs IH]; [discriminate|].
  rewrite checkGlobs_cons. destruct (forallb converts sts); [|discriminate].
  destruct (m g); [exact IH|discriminate].
Qed.

Lemma selectLabels_no_files m rs labels :
  selectLabels m [] rs = Ok labels -> labels = [].
Proof.
  intros H. apply selectLabels_ok_iff in H. destruct H as [_ ->].
  unfold JSMap.entries.
  induction rs as [|[l [globs sts]] rs IH]; simpl; [reflexivity|].
  unfold selected at 1. cbn [fst snd].
  destruct (checkGlobs m [] globs sts) as [[]|] eqn:E; try exact IH.
  now apply checkGlobs_no_files in E.
Qed.

Lemma checkGlobs_more_files m files files' globs sts b :
  incl files files' ->
  checkGlobs m files globs sts = Ok b ->
  exists b', checkGlobs m files' globs sts = Ok b' /\ (b = true -> b' = true).
Proof.
  intros Hf. revert b. induction globs as [|g globs IH]; intros b H.
  - exists false. inversion H; subst. split; [reflexivity|discriminate].
  - rewrite checkGlobs_cons in *.
    destruct (forallb converts sts); [|discriminate].
    destruct (m g) as [matcher|]; [|discriminate].
    destruct (checkFiles matcher files sts) eqn:E.
    + rewrite (checkFiles_incl _ _ _ _ _ Hf (incl_refl sts) E). eauto.
    + destruct (checkFiles matcher files' sts); [eauto|]. now apply IH.
Qed.

Lemma nodup_keys_filter {V} (p : string * V -> bool) (l : list (string * V)) :
  NoDup (map fst l) -> NoDup (map fst (filter p l)).
Proof.
  induction l as [|x l IH]; simpl; intros H; [constructor|].
  inversion H as [|? ? Hnotin Hnd]; subst.
  destruct (p x); simpl; [|auto].
  constructor; [|auto]. intros Hin. apply Hnotin.
  apply in_map_iff in Hin. destruct Hin as (y & Hy & Hin).
  apply filter_In in Hin. apply in_map_iff. exists y. tauto.
Qed.

Lemma lookup_of_key {V} k (l : list (string * V)) :
  In k (map fst l) <-> exists v, lookup k l = Some v.
Proof.
  induction l as [|[k' v'] l IH]; simpl.
  - split; [intros []|intros (v & [=])].
  - destruct (String.eqb_spec k' k) as [->|Hne].
    + split; [eauto|auto].
    + rewrite <- IH. tauto.
Qed.

(** X14. Whether a label is selected depends on its own rule only:
    when the loop completes over a rule set with distinct labels, a
    label is in the list exactly when the rule stored under it
    evaluates to true; and the labels of the list are distinct. *)
Theorem selected_iff_rule_matches
  (Minimatch : string -> result (string -> bool))
  (files : list File) (ruleSet : JSMap.t Rule) (labels : list string) :
  NoDup (JSMap.keys ruleSet) ->
  selectLabels Minimatch files ruleSet = Ok labels ->
  NoDup labels
  /\ forall label,
       In label labels
       <-> exists globs sts,
             JSMap.get ruleSet label = Some (globs, sts)
             /\ checkGlobs Minimatch files globs sts = Ok true.
Proof.
  intros Hnd Hsel. split.
  - apply selectLabels_ok_iff in Hsel. destruct Hsel as [_ ->].
    now apply nodup_keys_filter.
  - intros label. rewrite (selectLabels_in _ _ _ _ label Hsel). split.
    + intros (globs & sts & Hin & Hc). exists globs, sts.
      split; [|assumption]. now apply lookup_in_nodup.
    + intros (globs & sts & Hget & Hc). exists globs, sts.
      split; [|assumption].
      revert Hget. unfold JSMap.get, JSMap.entries. clear.
      induction ruleSet as [|[k v] rs IH]; simpl; [discriminate|].
      destruct (String.eqb_spec k label) as [->|_].
      * intros [= ->]. now left.
      * intros H. right. auto.
Qed.

Lemma selected_iff_rule_matches_witness :
  NoDup ["x"]
  /\ selectLabels literal_match
       [{| filename := "a"; status := "added" |}]
       [("x", (["a"], ALL_STATUS)); ("y", (["b"], ALL_STATUS))]
     = Ok ["x"].
Proof.
  split; [|reflexivity].
  refine (proj1 (selected_iff_rule_matches literal_match
                   [{| filename := "a"; status := "added" |}]
                   [("x", (["a"], ALL_STATUS)); ("y", (["b"], ALL_STATUS))]
                   ["x"] _ eq_refl)).
  repeat constructor; simpl; intuition discriminate.
Defined.

(** X15. More changed files never lose a label: when the loop completes
    for a list of files, it completes for any list that contains them,
    with every label it had selected. *)
Theorem selectLabels_monotone (Minimatch : string -> result (string -> bool))
  (files files' : list File) (ruleSet : JSMap.t Rule)
  (labels : list string) :
  incl files files' ->
  selectLabels Minimatch files ruleSet = Ok labels ->
  exists labels',
    selectLabels Minimatch files' ruleSet = Ok labels'
    /\ incl labels labels'.
Proof.
  intros Hf Hsel.
  assert (Hall : Forall (entry_returns Minimatch files')
                        (JSMap.entries ruleSet)).
  { apply selectLabels_ok_iff in Hsel. destruct Hsel as [Hall _].
    eapply Forall_impl; [|exact Hall].
    intros entry [Hc [b Hb]]. split; [exact Hc|].
    destruct (checkGlobs_more_files _ _ _ _ _ _ Hf Hb) as (b' & Hb' & _).
    eauto. }
  exists (map fst (filter (selected Minimatch files') (JSMap.entries ruleSet))).
  split; [apply selectLabels_ok_iff; auto|].
  intros label H. apply (selectLabels_in _ _ _ _ label Hsel) in H.
  destruct H as (globs & sts & Hin & Hc).
  apply in_map_iff. exists (label, (globs, sts)). split; [reflexivity|].
  apply filter_In. split; [assumption|].
  unfold selected. cbn [fst snd].
  destruct (checkGlobs_more_files _ _ _ _ _ _ Hf Hc) as (b' & -> & Hb').
  now apply Hb'.
Qed.

Lemma selectLabels_monotone_witness :
  exists labels',
    selectLabels literal_match
      [{| filename := "b"; status := "modified" |};
       {| filename := "a"; status := "added" |}]
      [("x", (["a"], ALL_STATUS)); ("y", (["b"], ALL_STATUS))]
    = Ok labels'
    /\ incl ["x"] labels'.
Proof.
  refine (selectLabels_monotone literal_match
            [{| filename := "a"; status := "added" |}]
            [{| filename := "b"; status := "modified" |};
             {| filename := "a"; status := "added" |}]
            [("x", (["a"], ALL_STATUS)); ("y", (["b"], ALL_STATUS))]
            ["x"] _ eq_refl).
  intros f [<-|[]]. simpl. auto.
Defined.

(** X16. A pull request without changed files gets no label: whenever
    the loop completes over an empty list of files it has selected
    nothing, and a run whose file listing is empty never calls
    [issues.addLabels]. *)
Theorem no_changed_files_no_labels
  (Minimatch : string -> result (string -> bool)) :
  (forall ruleSet labels,
      selectLabels Minimatch [] ruleSet = Ok labels -> labels = [])
  /\ (forall ruleSet,
         Forall (fun entry => evaluable Minimatch (snd entry))
                (JSMap.entries ruleSet) ->
         selectLabels Minimatch [] ruleSet = Ok [])
  /\ (forall w n,
         payload_pull_request (context w) = Some n ->
         pulls_listFiles w (repo_owner (context w)) (repo_repo (context w)) n
         = Ok [] ->
         filter is_addLabels (run Minimatch w) = []).
Proof.
  split; [apply selectLabels_no_files|]. split.
  - intros ruleSet Hall.
    assert (Hret : Forall (entry_returns Minimatch []) (JSMap.entries ruleSet)).
    { eapply Forall_impl; [|exact Hall]. intros entry.
      apply evaluable_returns. }
    assert (Hsel := proj2 (selectLabels_ok_iff Minimatch [] ruleSet _)
                      (conj Hret eq_refl)).
    now rewrite Hsel, (selectLabels_no_files _ _ _ Hsel).
  - intros w n Hpr Hfiles. rewrite run_cases, Hpr, Hfiles. unfold fail_tail.
    destruct (core_getInput w "repo-token"); [|reflexivity].
    destruct (core_getInput w "configuration-path") as [path|];
      [|reflexivity].
    destruct (falsy (Some n)); [reflexivity|].
    destruct (repos_getContents w _ _ path _) as [response|]; [|reflexivity].
    destruct (Buffer_toString w _ _) as [text|]; [|reflexivity].
    destruct (yaml_safeLoad w text) as [cfg|]; [|reflexivity].
    destruct (getLabelGlobMapFromObject cfg) as [rs|]; [|reflexivity].
    destruct (selectLabels Minimatch [] rs) as [labels|] eqn:Hsel;
      [|reflexivity].
    now rewrite (selectLabels_no_files _ _ _ Hsel).
Qed.

Lemma no_changed_files_no_labels_witness :
  filter is_addLabels
    (run literal_match
       (sample_world true (Some 7%Z) [] (JObj [("docs", JStr "README.md")])))
  = [].
Proof.
  exact (proj2 (proj2 (no_changed_files_no_labels literal_match))
           (sample_world true (Some 7%Z) []
              (JObj [("docs", JStr "README.md")]))
           7%Z eq_refl eq_refl).
Defined.

Lemma parser_keys_from_config cfg rs l :
  getLabelGlobMapFromObject cfg = Ok rs ->
  In l (JSMap.keys rs) <-> In l (for_in cfg).
Proof.
  intros H. unfold JSMap.keys. rewrite lookup_of_key. split.
  - intros (r & Hr). now destruct (parser_rule_inv _ _ _ _ H Hr).
  - intros Hl. destruct (parser_rule _ _ _ H Hl) as (r & _ & Hget). eauto.
Qed.

(** X17. The labels a run adds are labels of the configuration it
    loaded, each at most once. *)
Theorem added_labels_come_from_config
  (Minimatch : string -> result (string -> bool)) (w : World)
  (owner repo : string) (n : Z) (labels : list string) :
  In (IssuesAddLabels owner repo n labels) (run Minimatch w) ->
  NoDup labels
  /\ exists text configObject,
       yaml_safeLoad w text = Ok configObject
       /\ forall label, In label labels -> In label (for_in configObject).
Proof.
  intros H.
  assert (Hsel : selects Minimatch w n labels).
  { apply selection_outcome. rewrite run_split in H.
    apply in_app_or in H. destruct H as [H|H].
    { apply selection_trace in H. destruct H as [H _]. discriminate. }
    destruct (outcome_of (selection Minimatch w))
      as [[[n' labels']|]|error]; cbn in H.
    - destruct labels' as [|l labels']; [destruct H|].
      destruct H as [H|H]; [now inversion H|].
      apply catch_tail_events in H. destruct H as [H _]. discriminate.
    - destruct H.
    - destruct H as [H|[H|[]]]; discriminate. }
  destruct Hsel as (token & path & files & response & text & cfg & rs & _
                    & _ & _ & _ & _ & _ & _ & Hcfg & Hrs & Hlabels).
  apply selectLabels_ok_iff in Hlabels. destruct Hlabels as [_ ->].
  split.
  - apply nodup_keys_filter.
    now apply (parser_keys_nodup cfg).
  - exists text, cfg. split; [assumption|]. intros label Hl.
    apply (parser_keys_from_config _ _ _ Hrs).
    apply in_map_iff in Hl.
    destruct Hl as (entry & <- & Hin). apply filter_In in Hin.
    apply in_map. tauto.
Qed.

Lemma added_labels_come_from_config_witness :
  let w := sample_world true (Some 7%Z)
             [{| filename := "README.md"; status := "modified" |}]
             (JObj [("docs", JStr "README.md")]) in
  In (IssuesAddLabels "octo" "demo" 7 ["docs"]) (run literal_match w)
  /\ NoDup ["docs"].
Proof.
  intros w.
  assert (H : In (IssuesAddLabels "octo" "demo" 7 ["docs"])
                 (run literal_match w)) by (simpl; auto).
  split; [exact H|].
  exact (proj1 (added_labels_come_from_config literal_match w
                  "octo" "demo" 7 ["docs"] H)).
Defined.

(** ** The parser, further *)

Lemma enumerate_in {A} (p : string * A) props :
  In p (enumerate props) <-> In p props.
Proof.
  unfold enumerate, named_props.
  rewrite in_app_iff, filter_In, in_map_iff. split.
  - intros [([n q] & <- & H)|[H _]]; [|assumption].
    apply index_props_in in H. tauto.
  - intros H. unfold is_named.
    destruct (array_index (fst p)) as [n|] eqn:E; [left|right; auto].
    exists (n, p). split; [reflexivity|]. apply index_props_in. auto.
Qed.

(** X18. For a configuration that is a mapping, the rule set returned
    has one entry for each key of the mapping and no other entry, and no
    label twice. *)
Theorem mapping_labels_exactly (props : list (string * value))
  (ruleSet : JSMap.t Rule) :
  getLabelGlobMapFromObject (JObj props) = Ok ruleSet ->
  NoDup (JSMap.keys ruleSet)
  /\ forall label,
       In label (JSMap.keys ruleSet) <-> In label (map fst props).
Proof.
  intros H. split; [now apply (parser_keys_nodup (JObj props))|].
  intros label. rewrite (parser_keys_from_config _ _ _ H).
  unfold for_in. cbn [own_props]. rewrite !in_map_iff.
  split; intros (p & Hp & Hin); exists p; (split; [assumption|]);
    now apply enumerate_in.
Qed.

Lemma mapping_labels_exactly_witness :
  NoDup (JSMap.keys [("7", (["b"], ALL_STATUS)); ("z", (["a"], ALL_STATUS))]).
Proof.
  exact (proj1 (mapping_labels_exactly
                  [("z", JStr "a"); ("7", JArr [JStr "b"])]
                  [("7", (["b"], ALL_STATUS)); ("z", (["a"], ALL_STATUS))]
                  eq_refl)).
Defined.





(** The parser throws the error of the first label it cannot take. *)
Lemma parser_first_throw cfg pre l post error :
  for_in cfg = pre ++ l :: post ->
  (forall k, In k pre -> label_ok cfg k = true) ->
  ruleOfValue l (get_own cfg l) = Throw error ->
  getLabelGlobMapFromObject cfg = Throw error.
Proof.
  intros Hkeys Hpre Hl. unfold getLabelGlobMapFromObject.
  assert (Hincl : incl (pre ++ l :: post) (for_in cfg))
    by (rewrite Hkeys; apply incl_refl).
  rewrite Hkeys. generalize (@JSMap.empty Rule) as m0.
  clear Hkeys. induction pre as [|k pre IH]; intros m0; cbn [foldM app].
  - rewrite parseLabel_rule by (apply Hincl; now left).
    now rewrite Hl.
  - rewrite parseLabel_rule by (apply Hincl; now left).
    destruct (label_ok_rule cfg k (Hpre k (or_introl eq_refl))) as [r ->].
    cbn [JS.bind]. apply IH.
    + intros k' Hk'. apply Hpre. now right.
    + intros x Hx. apply Hincl. now right.
Qed.

(** X20. The parser stops at the first label, in the order of its loop,
    whose value it cannot take: when the labels before it are fine and
    its value is neither a string nor a sequence, the error names that
    label, whatever comes after. *)
Theorem first_bad_label_named (configObject : value)
  (pre post : list string) (label : string) :
  for_in configObject = pre ++ label :: post ->
  (forall k, In k pre -> label_ok configObject k = true) ->
  is_string (get_own configObject label) = false ->
  is_array (get_own configObject label) = false ->
  getLabelGlobMapFromObject configObject
  = Throw (UnexpectedLabelType label).
Proof.
  intros Hkeys Hpre Hs Ha.
  apply (parser_first_throw _ _ _ _ _ Hkeys Hpre).
  destruct (get_own configObject label); simpl in *;
    try reflexivity; discriminate.
Qed.

Lemma first_bad_label_named_witness :
  getLabelGlobMapFromObject
    (JObj [("a", JStr "x"); ("b", JNum 42); ("c", JNull)])
  = Throw (UnexpectedLabelType "b").
Proof.
  refine (first_bad_label_named
            (JObj [("a", JStr "x"); ("b", JNum 42); ("c", JNull)])
            ["a"] ["c"] "b" eq_refl _ eq_refl eq_refl).
  intros k [<-|[]]. reflexivity.
Defined.

Lemma scanElement_rejected_error st e :
  accepted_element e = false -> scanElement st e = Throw (element_error e).
Proof.
  destruct st as [globs sts].
  unfold accepted_element, is_on_entry. rewrite scanElement_cases.
  destruct e; simpl; try discriminate; try reflexivity.
  destruct (lookup "on" props) as [[]|]; simpl; try discriminate;
    reflexivity.
Qed.

(** X21. In a sequence, the first element that is neither a string nor
    an [on] entry decides the error: the engine's TypeError when it is
    null or undefined (an empty YAML item), the parser's own error
    otherwise; what follows it is not looked at. *)
Theorem first_bad_element_error (configObject : value)
  (pre post : list string) (label : string)
  (before after : list value) (e : value) :
  for_in configObject = pre ++ label :: post ->
  (forall k, In k pre -> label_ok configObject k = true) ->
  get_own configObject label = JArr (before ++ e :: after) ->
  forallb accepted_element before = true ->
  accepted_element e = false ->
  getLabelGlobMapFromObject configObject = Throw (element_error e).
Proof.
  intros Hkeys Hpre Hv Hbefore He.
  apply (parser_first_throw _ _ _ _ _ Hkeys Hpre).
  rewrite Hv. simpl. rewrite scanArray_elements, foldM_app.
  rewrite (scan_accepted _ _ _ Hbefore). cbn [JS.bind foldM].
  now rewrite (scanElement_rejected_error _ _ He).
Qed.

Lemma first_bad_element_error_witness :
  getLabelGlobMapFromObject
    (JObj [("a", JArr [JStr "x"; JNull; JNum 1])])
  = Throw (PropertyOfNullish "null" "on").
Proof.
  refine (first_bad_element_error
            (JObj [("a", JArr [JStr "x"; JNull; JNum 1])])
            [] [] "a" [JStr "x"] [JNum 1] JNull
            eq_refl _ eq_refl eq_refl eq_refl).
  intros k [].
Defined.

Lemma spec_globs_in es g : In g (spec_globs es) <-> In (JStr g) es.
Proof.
  unfold spec_globs. rewrite in_flat_map. split.
  - intros (e & He & Hg). destruct e; simpl in Hg; try contradiction.
    destruct Hg as [<-|[]]. exact He.
  - intros H. exists (JStr g). split; [assumption|now left].
Qed.

(** X22. The globs of a rule are strings written in the configuration
    under its label, and all of them: the bare string, or the string
    elements of the sequence. *)
Theorem rule_globs_membership (configObject : value)
  (ruleSet : JSMap.t Rule) (label : string)
  (globs : list string) (sts : list value) :
  getLabelGlobMapFromObject configObject = Ok ruleSet ->
  JSMap.get ruleSet label = Some (globs, sts) ->
  forall g,
    In g globs
    <-> get_own configObject label = JStr g
        \/ exists es, get_own configObject label = JArr es /\ In (JStr g) es.
Proof.
  intros H Hget g. destruct (parser_rule_inv _ _ _ _ H Hget) as [_ Hr].
  destruct (get_own configObject label) as [| | | |s|es|]; simpl in Hr;
    try discriminate.
  - inversion Hr; subst. simpl. split.
    + intros [->|[]]. now left.
    + intros [[= ->]|(es & [=] & _)]. now left.
  - apply scanArray_ok_iff in Hr. destruct Hr as [_ [= -> ->]].
    rewrite spec_globs_in. split.
    + intros Hin. right. eauto.
    + intros [[=]|(es' & [= <-] & Hin)]. exact Hin.
Qed.

Lemma rule_globs_membership_witness :
  In "b/**" ["a/**"; "b/**"].
Proof.
  refine (proj2 (rule_globs_membership
                   (JObj [("x", JArr [JStr "a/**"; JObj [("on", JStr "added")];
                                      JStr "b/**"])])
                   [("x", (["a/**"; "b/**"], [JStr "added"]))]
                   "x" ["a/**"; "b/**"] [JStr "added"] eq_refl eq_refl
                   "b/**") _).
  right. eexists. split; [reflexivity|]. simpl. auto.
Defined.

(** X23. Labels do not interfere: two configurations that give a label
    the same value give it the same rule, whatever their other labels. *)
Theorem rule_depends_on_value_only (config1 config2 : value)
  (rules1 rules2 : JSMap.t Rule) (label : string) :
  getLabelGlobMapFromObject config1 = Ok rules1 ->
  getLabelGlobMapFromObject config2 = Ok rules2 ->
  In label (for_in config1) ->
  In label (for_in config2) ->
  get_own config1 label = get_own config2 label ->
  JSMap.get rules1 label = JSMap.get rules2 label
  /\ exists r, JSMap.get rules1 label = Some r.
Proof.
  intros H1 H2 Hl1 Hl2 Hv.
  destruct (parser_rule _ _ _ H1 Hl1) as (r1 & Hr1 & Hg1).
  destruct (parser_rule _ _ _ H2 Hl2) as (r2 & Hr2 & Hg2).
  rewrite Hv in Hr1. rewrite Hr1 in Hr2. inversion Hr2; subst.
  rewrite Hg1, Hg2. eauto.
Qed.

Lemma rule_depends_on_value_only_witness :
  JSMap.get [("a", (["x"], ALL_STATUS)); ("b", (["y"], [JStr "added"]))] "b"
  = JSMap.get [("b", (["y"], [JStr "added"]))] "b".
Proof.
  exact (proj1 (rule_depends_on_value_only
                  (JObj [("a", JStr "x");
                         ("b", JArr [JStr "y"; JObj [("on", JStr "added")]])])
                  (JObj [("b", JArr [JStr "y"; JObj [("on", JStr "added")]])])
                  [("a", (["x"], ALL_STATUS)); ("b", (["y"], [JStr "added"]))]
                  [("b", (["y"], [JStr "added"]))]
                  "b" eq_refl eq_refl
                  (or_intror (or_introl eq_refl)) (or_introl eq_refl)
                  eq_refl)).
Defined.

(** ** The run, further *)

(** X24. A missing input fails the run before anything else happens:
    the token is read first, then the configuration path, and the error
    of the first one that throws is reported, with no log line and no
    call on the client. *)
Theorem missing_input_fails_run (Minimatch : string -> result (string -> bool))
  (w : World) (error : Thrown) :
  (core_getInput w "repo-token" = Throw error ->
   run Minimatch w = [CoreError error; CoreSetFailed (message error)])
  /\ (forall token,
         core_getInput w "repo-token" = Ok token ->
         core_getInput w "configuration-path" = Throw error ->
         run Minimatch w
         = [CoreError error; CoreSetFailed (message error)]).
Proof.
  split.
  - intros H. now rewrite run_cases, H.
  - intros token Ht H. now rewrite run_cases, Ht, H.
Qed.

Lemma missing_input_fails_run_witness :
  run literal_match
      (sample_world false (Some 7%Z)
         [{| filename := "a"; status := "added" |}] (JObj [("x", JStr "a")]))
  = [CoreError (External "Input required and not supplied: repo-token");
     CoreSetFailed "Input required and not supplied: repo-token"].
Proof.
  exact (proj1 (missing_input_fails_run literal_match
                  (sample_world false (Some 7%Z)
                     [{| filename := "a"; status := "added" |}]
                     (JObj [("x", JStr "a")]))
                  (External "Input required and not supplied: repo-token"))
           eq_refl).
Defined.

(** X25. A configuration document without labels (empty, null, a
    number, a boolean, or an empty mapping or sequence) is accepted as
    no rule at all: the run reads the files and the configuration, adds
    nothing and does not fail. *)
Theorem empty_config_adds_nothing (Minimatch : string -> result (string -> bool))
  (w : World) (token path text : string) (n : Z) (files : list File)
  (response : Contents) (configObject : value) :
  core_getInput w "repo-token" = Ok token ->
  core_getInput w "configuration-path" = Ok path ->
  payload_pull_request (context w) = Some n ->
  n <> 0%Z ->
  pulls_listFiles w (repo_owner (context w)) (repo_repo (context w)) n
  = Ok files ->
  repos_getContents w (repo_owner (context w)) (repo_repo (context w))
    path (sha (context w)) = Ok response ->
  Buffer_toString w (content response) (encoding response) = Ok text ->
  yaml_safeLoad w text = Ok configObject ->
  for_in configObject = [] ->
  run Minimatch w
  = [PullsListFiles (repo_owner (context w)) (repo_repo (context w)) n;
     ReposGetContents (repo_owner (context w)) (repo_repo (context w))
       path (sha (context w))].
Proof.
  intros Htoken Hpath Hpr Hn Hfiles Hresp Ht Hcfg Hkeys.
  rewrite run_cases, Htoken, Hpath, Hpr, (falsy_nonzero _ Hn), Hfiles,
    Hresp, Ht, Hcfg.
  unfold getLabelGlobMapFromObject. rewrite Hkeys. reflexivity.
Qed.

Lemma empty_config_adds_nothing_witness :
  run literal_match
      (sample_world true (Some 7%Z)
         [{| filename := "a"; status := "added" |}] JUndefined)
  = [PullsListFiles "octo" "demo" 7;
     ReposGetContents "octo" "demo" ".github/labeler.yml" "0a1b2c"].
Proof.
  refine (empty_config_adds_nothing literal_match
            (sample_world true (Some 7%Z)
               [{| filename := "a"; status := "added" |}] JUndefined)
            "secret" ".github/labeler.yml" "ZG9jczogJyoubWQn" 7
            [{| filename := "a"; status := "added" |}]
            {| content := "ZG9jczogJyoubWQn"; encoding := "base64" |}
            JUndefined eq_refl eq_refl eq_refl _ eq_refl eq_refl eq_refl
            eq_refl eq_refl).
  discriminate.
Defined.
